(** * girder_worker docker executor: a shallow embedding and its properties

    The development follows [girder_worker/plugins/docker/executor.py].
    Python byte strings are lists of characters, dictionaries whose
    iteration order is observable are association lists (in iteration
    order), dictionaries that are only indexed are finite maps, and the
    operating system, the worker configuration and the stream-capturing
    helper are an interface the executor is parameterised over. *)

From Stdlib Require Import Ascii String ZArith NArith DecimalString.
From Stdlib Require DecimalPos DecimalZ.
From stdpp Require Import base list gmap strings.

Local Open Scope list_scope.

(** ** Python strings *)

Module Py.

Abbreviation pystr := (list ascii).

(** String literals of the source, as character lists. *)
Definition str (s : string) : pystr := list_ascii_of_string s.

(** [s.startswith(p)] *)
Fixpoint startswith (p s : pystr) : bool :=
  match p, s with
  | [], _ => true
  | _ :: _, [] => false
  | a :: p', b :: s' => if decide (a = b) then startswith p' s' else false
  end.

(** [s.endswith(p)] *)
Definition endswith (p s : pystr) : bool := startswith (rev p) (rev s).

(** [s.replace(old, new)] for a non-empty [old]: occurrences are found
    from the left and do not overlap; [skip] counts the characters of an
    occurrence that are still to be passed over. *)
Fixpoint replace_from (old new : pystr) (skip : nat) (s : pystr) : pystr :=
  match s with
  | [] => []
  | c :: s' =>
      match skip with
      | S k => replace_from old new k s'
      | O =>
          if startswith old s
          then new ++ replace_from old new (length old - 1) s'
          else c :: replace_from old new 0 s'
      end
  end.

(** [s.replace(old, new)]; with an empty [old] Python inserts [new]
    before every character and at the end. *)
Definition replace (old new s : pystr) : pystr :=
  match old with
  | [] => new ++ flat_map (fun c => c :: new) s
  | _ :: _ => replace_from old new 0 s
  end.

(** [s.replace(old, new, 1)]: only the leftmost occurrence. *)
Fixpoint replace_first (old new s : pystr) : pystr :=
  if startswith old s then new ++ drop (length old) s
  else match s with
       | [] => []
       | c :: s' => c :: replace_first old new s'
       end.

(** [s.split(sep)] for a one-character separator. *)
Fixpoint split (sep : ascii) (s : pystr) : list pystr :=
  match s with
  | [] => [[]]
  | c :: s' =>
      if decide (c = sep) then [] :: split sep s'
      else match split sep s' with
           | h :: t => (c :: h) :: t
           | [] => [[c]]
           end
  end.

(** [sep.join(l)] *)
Fixpoint join (sep : pystr) (l : list pystr) : pystr :=
  match l with
  | [] => []
  | [x] => x
  | x :: l' => x ++ sep ++ join sep l'
  end.

(** The characters [str.strip()] removes. *)
Definition is_space (c : ascii) : bool :=
  bool_decide (c ∈ [" "%char; "009"%char; "010"%char; "011"%char;
                    "012"%char; "013"%char]).

Fixpoint lstrip (s : pystr) : pystr :=
  match s with
  | c :: s' => if is_space c then lstrip s' else s
  | [] => []
  end.

(** [s.strip()] *)
Definition strip (s : pystr) : pystr := rev (lstrip (rev (lstrip s))).

(** [str(n)] for an integer. *)
Definition str_of_Z (z : Z) : pystr := str (NilZero.string_of_int (Z.to_int z)).

(** The longest prefix of [s] without the character [c], and what
    follows it. *)
Fixpoint take_until (c : ascii) (s : pystr) : pystr :=
  match s with
  | [] => []
  | x :: s' => if decide (x = c) then [] else x :: take_until c s'
  end.

Fixpoint drop_until (c : ascii) (s : pystr) : pystr :=
  match s with
  | [] => []
  | x :: s' => if decide (x = c) then s else drop_until c s'
  end.

(** Truthiness of a string: [if s:] *)
Definition truthy (s : pystr) : bool :=
  match s with [] => false | _ :: _ => true end.

End Py.

(** ** Exceptions *)

(** The exceptions the executor can raise or let through: the ones it
    raises itself ([Exception], [TaskSpecValidationError]) and those of
    the dictionary and [os.path] operations it calls. *)
Inductive exn : Type :=
  | Exception (msg : Py.pystr)
  | TaskSpecValidationError (msg : Py.pystr)
  | KeyError (key : Py.pystr)
  | ValueError (msg : Py.pystr)
  | AttributeError (attr : Py.pystr)
  | OSError (path : Py.pystr).

Inductive result (A : Type) : Type :=
  | Ok (a : A)
  | Raise (e : exn).
Arguments Ok {A} a.
Arguments Raise {A} e.

Definition is_Raise {A} (r : result A) : Prop :=
  match r with Raise _ => True | Ok _ => False end.

Definition bind {A B} (r : result A) (k : A → result B) : result B :=
  match r with
  | Ok a => k a
  | Raise e => Raise e
  end.

Notation "'let*' x := r 'in' k" := (bind r (fun x => k))
  (at level 10, x pattern, r at level 100, k at level 200).

(** [d[k]] on a dictionary: [KeyError] when the key is missing. *)
Definition getitem {V} (d : gmap Py.pystr V) (k : Py.pystr) : result V :=
  match d !! k with
  | Some v => Ok v
  | None => Raise (KeyError k)
  end.

(** ** [os.path] on POSIX *)

Module PosixPath.
Import Py.

Definition sep : ascii := "/"%char.

(** [os.path.isabs] *)
Definition isabs (s : pystr) : bool := startswith [sep] s.

(** One step of [os.path.join(a, *p)]: the loop body for a component [b]. *)
Definition join2 (path b : pystr) : pystr :=
  if startswith [sep] b then b
  else if bool_decide (path = []) || endswith [sep] path then path ++ b
  else path ++ sep :: b.

(** [os.path.join(a, *p)] *)
Definition join (a : pystr) (p : list pystr) : pystr := foldl join2 a p.

(** The loop of [os.path.normpath] over the components of the path:
    empty and ["."] components are dropped, [".."] cancels the component
    before it unless there is none (and the path is relative) or it is
    itself [".."]. *)
Definition normpath_step (initial_slashes : nat) (new_comps : list pystr)
    (comp : pystr) : list pystr :=
  if bool_decide (comp = [] ∨ comp = str ".") then new_comps
  else if bool_decide (comp ≠ str "..")
          || (bool_decide (initial_slashes = 0) && bool_decide (new_comps = []))
          || (bool_decide (new_comps ≠ []) && bool_decide (last new_comps = Some (str "..")))
       then new_comps ++ [comp]
       else removelast new_comps.

(** [os.path.normpath] *)
Definition normpath (path : pystr) : pystr :=
  if bool_decide (path = []) then str "."
  else
    let initial_slashes :=
      if startswith [sep] path
      then if startswith (str "//") path && negb (startswith (str "///") path)
           then 2 else 1
      else 0 in
    let comps := foldl (normpath_step initial_slashes) [] (split sep path) in
    let path' := replicate initial_slashes sep ++ Py.join [sep] comps in
    if bool_decide (path' = []) then str "." else path'.

(** [os.path.abspath], with the working directory [os.getcwd()] made
    explicit. *)
Definition abspath (cwd path : pystr) : pystr :=
  normpath (if isabs path then path else join cwd [path]).

(** [os.path.commonprefix] of two lists: their longest common prefix. *)
Fixpoint commonprefix (l1 l2 : list pystr) : list pystr :=
  match l1, l2 with
  | a :: l1', b :: l2' => if decide (a = b) then a :: commonprefix l1' l2' else []
  | _, _ => []
  end.

(** [os.path.relpath(path, start)]; [start] is [None] when the caller
    passes no directory. *)
Definition relpath (cwd path : pystr) (start : option pystr) : result pystr :=
  if bool_decide (path = []) then Raise (ValueError (str "no path specified"))
  else
    match start with
    | None => Raise (AttributeError (str "startswith"))
    | Some start =>
        let start_list := filter (λ x, x ≠ []) (split sep (abspath cwd start)) in
        let path_list := filter (λ x, x ≠ []) (split sep (abspath cwd path)) in
        let i := length (commonprefix start_list path_list) in
        let rel_list := replicate (length start_list - i) (str "..") ++ drop i path_list in
        match rel_list with
        | [] => Ok (str ".")
        | a :: p => Ok (join a p)
        end
    end.

End PosixPath.

(** ** The executor: data *)

Import Py.

(** A Python dictionary from strings to strings: an input or output
    binding (with its ['script_data'] entry) or an input or output
    descriptor (['id'], ['name'], ['target'], ['path']). *)
Abbreviation dict := (gmap pystr pystr).

(** A dictionary whose iteration order is observed ([itervalues],
    [iteritems]): its items in that order. *)
Abbreviation items := (list (pystr * dict)).

(** The task specification. Every entry is optional in the dictionary;
    [None] is an absent key. *)
Record task_spec : Type := {
  docker_image : option pystr;
  pull_image : option bool;
  entrypoint : option pystr;
  docker_run_args : option (list pystr);
  container_args : option (list pystr)
}.

(** ** Argument expansion *)

(** The literals of the argument resolver. *)
Definition DATA : pystr := Eval cbv in str "/data".
Definition TEMPDIR : pystr := Eval cbv in str "_tempdir".
Definition OPEN : pystr := Eval cbv in str "$input{".
Definition CLOSE : ascii := "}"%char.

(** ['$input{%s}' % inputId] *)
Definition placeholder (inputId : pystr) : pystr := OPEN ++ inputId ++ [CLOSE].

(** The regular expression [\$input\{([^}]+)\}] tried at the head of
    [s]: the literal ["$input{"], then as many characters other than
    ["}"] as there are, at least one, then ["}"]. The result is the
    text of group 1. *)
Definition regex_match (s : pystr) : option pystr :=
  if startswith OPEN s then
    let r := drop (length OPEN) s in
    let inputId := take_until CLOSE r in
    match inputId, drop_until CLOSE r with
    | _ :: _, _ :: _ => Some inputId
    | _, _ => None
    end
  else None.

(** [re.findall(regex, s)]: the matches from left to right, the scan
    resuming after each match; [skip] counts the characters of the last
    match still to be passed over. *)
Fixpoint findall_from (skip : nat) (s : pystr) : list pystr :=
  match s with
  | [] => []
  | _ :: s' =>
      match skip with
      | S k => findall_from k s'
      | O =>
          match regex_match s with
          | Some inputId => inputId :: findall_from (length (placeholder inputId) - 1) s'
          | None => findall_from 0 s'
          end
      end
  end.

Definition findall (s : pystr) : list pystr := findall_from 0 s.

(** [ti['id'] if 'id' in ti else ti['name']] *)
Definition descriptor_id (ti : dict) : result pystr :=
  if bool_decide (is_Some (ti !! str "id")) then getitem ti (str "id")
  else getitem ti (str "name").

(** [inputs[inputId]['script_data']] *)
Definition script_data_of (inputs : gmap pystr dict) (inputId : pystr) : result pystr :=
  let* v := getitem inputs inputId in getitem v (str "script_data").

Section expand.
(** [os.getcwd()], which [os.path.relpath] consults for relative paths. *)
Variable cwd : pystr.

Variable inputs : gmap pystr dict.
Variable taskInputs : items.
(** [tmpDir] is [None] when the caller passed no [_tempdir]. *)
Variable tmpDir : option pystr.

Fixpoint transform_path_loop (tis : items) (inputId : pystr) : result pystr :=
  match tis with
  | [] => Raise (Exception (str "No task input found with id = " ++ inputId))
  | (_, ti) :: tis' =>
      let* tiId := descriptor_id ti in
      if bool_decide (tiId = inputId) then
        if bool_decide (ti !! str "target" = Some (str "filepath")) then
          let* data := script_data_of inputs inputId in
          let* rel := PosixPath.relpath cwd data tmpDir in
          Ok (PosixPath.join DATA [rel])
        else script_data_of inputs inputId
      else transform_path_loop tis' inputId
  end.

Definition _transform_path (inputId : pystr) : result pystr :=
  transform_path_loop taskInputs inputId.

(** The body of the inner loop of [_expand_args], for one match. *)
Definition expand_step (arg inputId : pystr) : result pystr :=
  if bool_decide (is_Some (inputs !! inputId)) then
    let* transformed := _transform_path inputId in
    Ok (replace (placeholder inputId) transformed arg)
  else if bool_decide (inputId = TEMPDIR) then
    Ok (replace (placeholder TEMPDIR) DATA arg)
  else Ok arg.

(** The inner loop: [arg] is rebound at each step, the matches were
    computed once on the original argument. *)
Fixpoint expand_steps (arg : pystr) (ids : list pystr) : result pystr :=
  match ids with
  | [] => Ok arg
  | inputId :: ids' =>
      let* arg' := expand_step arg inputId in expand_steps arg' ids'
  end.

Definition expand_arg (arg : pystr) : result pystr :=
  expand_steps arg (findall arg).

(** The outer loop, accumulating [newArgs]. *)
Fixpoint expand_loop (newArgs args : list pystr) : result (list pystr) :=
  match args with
  | [] => Ok newArgs
  | arg :: args' =>
      let* arg' := expand_arg arg in expand_loop (newArgs ++ [arg']) args'
  end.

Definition _expand_args (args : list pystr) : result (list pystr) :=
  expand_loop [] args.
End expand.

(** ** Output validation *)

Definition FILEPATH : pystr := Eval cbv in str "filepath".
Definition STDOUT : pystr := Eval cbv in str "_stdout".
Definition STDERR : pystr := Eval cbv in str "_stderr".
Definition DATA_SLASH : pystr := Eval cbv in str "/data/".
Definition SCRIPT_DATA : pystr := Eval cbv in str "script_data".

(** The double quote and the line feed characters. *)
Definition DQUOTE : ascii := "034"%char.
Definition NEWLINE : ascii := "010"%char.

Definition invalid_path_message : pystr :=
  str "Docker filepath output paths must either start with "
  ++ DQUOTE :: str "/data/" ++ DQUOTE :: str " or be specified relative to the /data dir.".

Definition invalid_output_message : pystr :=
  str "Docker outputs must be either "
  ++ DQUOTE :: str "_stdout" ++ DQUOTE :: str ", "
  ++ DQUOTE :: str "_stderr" ++ DQUOTE :: str ", or filepath-target outputs.".

(** [spec.get('target') == 'filepath'] *)
Definition is_filepath (spec : dict) : bool :=
  bool_decide (spec !! str "target" = Some FILEPATH).

(** [spec.get('path', name)] *)
Definition effective_path (name : pystr) (spec : dict) : pystr :=
  default name (spec !! str "path").

Fixpoint validate_task_outputs (task_outputs : items) : result unit :=
  match task_outputs with
  | [] => Ok tt
  | (name, spec) :: rest =>
      if is_filepath spec then
        let path := effective_path name spec in
        if startswith (str "/") path && negb (startswith DATA_SLASH path)
        then Raise (TaskSpecValidationError invalid_path_message)
        else validate_task_outputs rest
      else if negb (bool_decide (name ∈ [STDOUT; STDERR]))
      then Raise (TaskSpecValidationError invalid_output_message)
      else validate_task_outputs rest
  end.

(** ** The host: operating system, configuration, subprocesses *)

(** What the executor asks of its environment. [W] is the state of the
    world; an operation that changes it returns the new one. *)
Class Host (W : Type) : Type := {
  (** [os.getcwd()], [os.getuid()], [os.environ] *)
  os_getcwd : W → pystr;
  os_getuid : W → Z;
  os_environ : W → gmap pystr pystr;
  (** [os.path.exists], [os.path.isfile], [os.access(_, os.X_OK)] *)
  os_path_exists : W → pystr → bool;
  os_path_isfile : W → pystr → bool;
  os_access_X_OK : W → pystr → bool;
  (** [os.mkdir] *)
  os_mkdir : pystr → W → result unit * W;
  (** [with open(path, 'w') as fd: fd.write(data)] *)
  write_file : pystr → pystr → W → result unit * W;
  (** [os.path.dirname(__file__)] *)
  module_dir : pystr;
  (** [print] *)
  print : pystr → W → W;
  (** [subprocess.Popen(args, stdout=PIPE, stderr=PIPE)] followed by
      [communicate()]: the return code and the two captured streams. *)
  popen_communicate : list pystr → W → result (Z * pystr * pystr) * W;
  (** [subprocess.Popen(args, env=env)]: a handle on the started process. *)
  popen : list pystr → gmap pystr pystr → W → result nat * W;
  (** [p.wait()], then [p.returncode] *)
  wait : nat → W → Z * W;
  (** [config.has_option(section, key)], [config.get(section, key)] *)
  config_has_option : W → pystr → pystr → bool;
  config_get : W → pystr → pystr → pystr;
  (** [girder_worker.utils.run_process(command, outputs, print_stdout,
      print_stderr)]: runs the command to its end, appends the captured
      streams to the output bindings, and gives the return code. *)
  run_process : list pystr → gmap pystr dict → bool → bool → W →
                result (Z * gmap pystr dict) * W
}.

(** A value that is a string or an integer ([_read_from_config] returns
    the configured string or the default it was given). *)
Inductive pyval : Type :=
  | PyStr (s : pystr)
  | PyInt (z : Z).

(** [str(v)] *)
Definition py_str (v : pyval) : pystr :=
  match v with
  | PyStr s => s
  | PyInt z => str_of_Z z
  end.

Section executor.
Context {W : Type} `{Host W}.

(** The mutable state of one execution: the world and the [outputs]
    dictionary the caller handed in. *)
Record state : Type := { world : W; outputs : gmap pystr dict }.

Definition M (A : Type) : Type := state → result A * state.

Definition ret {A} (a : A) : M A := λ st, (Ok a, st).
Definition raise {A} (e : exn) : M A := λ st, (Raise e, st).
Definition of_result {A} (r : result A) : M A := λ st, (r, st).
Definition mbind {A B} (m : M A) (k : A → M B) : M B :=
  λ st, match m st with
        | (Ok a, st') => k a st'
        | (Raise e, st') => (Raise e, st')
        end.

(** Reading the world, changing it, and operations that may fail. *)
Definition ask {A} (f : W → A) : M A := λ st, (Ok (f (world st)), st).
Definition tell (f : W → W) : M unit :=
  λ st, (Ok tt, {| world := f (world st); outputs := outputs st |}).
Definition call {A} (f : W → A * W) : M A :=
  λ st, let (a, w) := f (world st) in
        (Ok a, {| world := w; outputs := outputs st |}).
Definition try {A} (f : W → result A * W) : M A :=
  λ st, let (r, w) := f (world st) in
        (r, {| world := w; outputs := outputs st |}).
End executor.

Arguments state W : clear implicits.
Arguments M W A : clear implicits.

Notation "'let!' x := m 'in' k" := (mbind m (fun x => k))
  (at level 10, x pattern, m at level 100, k at level 200).

(** ** Pulling, reclaiming, running *)

Section run.
Context {W : Type} `{Host W}.

(** The messages of the exceptions the executor raises. *)
Definition pull_error (returncode : Z) : exn :=
  Exception (str "Docker pull returned code " ++ str_of_Z returncode ++ str ".").
Definition run_error (returncode : Z) : exn :=
  Exception (str "Error: docker run returned code " ++ str_of_Z returncode ++ str ".").
Definition missing_output_error (path : pystr) : exn :=
  Exception (str "Output filepath " ++ path ++ str " does not exist.").
Definition gc_error (returncode : Z) : exn :=
  Exception (str "Docker GC returned code " ++ str_of_Z returncode ++ str ".").
Definition gc_not_found_error (script : pystr) : exn :=
  Exception (str "Docker GC script " ++ script ++ str " not found.").
Definition gc_not_executable_error (script : pystr) : exn :=
  Exception (str "Docker GC script " ++ script ++ str " is not executable.").

Definition _pull_image (image : pystr) : M W unit :=
  let command := [str "docker"; str "pull"; image] in
  let! (returncode, stdout, stderr) := try (popen_communicate command) in
  if bool_decide (returncode ≠ 0%Z) then
    let! _ := tell (print (str "Error pulling docker image " ++ image ++ str ":")) in
    let! _ := tell (print (str "STDOUT: " ++ stdout)) in
    let! _ := tell (print (str "STDERR: " ++ stderr)) in
    raise (pull_error returncode)
  else ret tt.

Definition _read_from_config (key : pystr) (default : pyval) : M W pyval :=
  let! has := ask (λ w, config_has_option w (str "docker") key) in
  if has then
    let! v := ask (λ w, config_get w (str "docker") key) in ret (PyStr v)
  else ret default.

(** [[img for img in excluded if img.strip()]] *)
Definition nonblank (excluded : list pystr) : list pystr :=
  filter (λ img, truthy (strip img) = true) excluded.

(** Lines 103 to 116 of [_docker_gc]: the environment of the reclaimer,
    the exclusion file being written on the way when there are
    exclusions. *)
Definition gc_environment (tempdir : pystr) : M W (gmap pystr pystr) :=
  let! env := ask os_environ in
  let env := <[str "FORCE_CONTAINER_REMOVAL" := str "1"]> env in
  let env := <[str "STATE_DIR" := tempdir]> env in
  let env := <[str "PID_DIR" := tempdir]> env in
  let! timeout := _read_from_config (str "cache_timeout") (PyInt 3600) in
  let env := <[str "GRACE_PERIOD_SECONDS" := py_str timeout]> env in
  let! images := _read_from_config (str "exclude_images") (PyStr []) in
  let! excluded :=
    match images with
    | PyStr s => ret (split ","%char s)
    | PyInt _ => raise (AttributeError (str "split"))
    end in
  let excluded := nonblank excluded in
  match excluded with
  | _ :: _ =>
      let exclude_file := PosixPath.join tempdir [str ".docker-gc-exclude"] in
      let! _ := try (write_file exclude_file
                       (Py.join [NEWLINE] excluded ++ [NEWLINE])) in
      ret (<[str "EXCLUDE_FROM_GC" := exclude_file]> env)
  | [] => ret env
  end.

Definition _docker_gc (tempdir : pystr) : M W nat :=
  let script := PosixPath.join module_dir [str "docker-gc"] in
  let! isfile := ask (λ w, os_path_isfile w script) in
  if negb isfile then raise (gc_not_found_error script) else
  let! executable := ask (λ w, os_access_X_OK w script) in
  if negb executable then raise (gc_not_executable_error script) else
  let! env := gc_environment tempdir in
  try (popen [script] env).

(** [outputs[name]['script_data'] = value] *)
Definition set_script_data (name value : pystr) : M W unit :=
  λ st, match outputs st !! name with
        | Some slot =>
            (Ok tt, {| world := world st;
                       outputs := <[name := <[SCRIPT_DATA := value]> slot]> (outputs st) |})
        | None => (Raise (KeyError name), st)
        end.

(** Lines 151 to 158 of [run]: a declared [_stderr] or [_stdout]
    output gets an empty binding and is no longer echoed. The pair is
    [(print_stderr, print_stdout)]. *)
Fixpoint declare_streams (task_outputs : items) (flags : bool * bool) : M W (bool * bool) :=
  match task_outputs with
  | [] => ret flags
  | (id, _) :: rest =>
      if bool_decide (id = STDERR) then
        let! _ := set_script_data STDERR [] in
        declare_streams rest (false, snd flags)
      else if bool_decide (id = STDOUT) then
        let! _ := set_script_data STDOUT [] in
        declare_streams rest (fst flags, false)
      else declare_streams rest flags
  end.

(** Lines 160 to 171 of [run]: the command line. *)
Definition docker_command (task : task_spec) (uid : Z) (tempdir : option pystr)
    (image : pystr) (args : list pystr) : list pystr :=
  [str "docker"; str "run"; str "-u"; str_of_Z uid]
  ++ (match tempdir with
      | Some t => if truthy t then [str "-v"; t ++ str ":/data"] else []
      | None => []
      end)
  ++ (match entrypoint task with
      | Some e => [str "--entrypoint"; e]
      | None => []
      end)
  ++ default [] (docker_run_args task)
  ++ [image] ++ args.

(** Lines 141 to 173 of [run]: everything before the container is
    started. The result is the command line and the two echo flags
    [(print_stdout, print_stderr)] handed to [run_process]. *)
Definition run_prepare (task : task_spec) (inputs : gmap pystr dict)
    (task_inputs task_outputs : items) (tempdir : option pystr)
    : M W (list pystr * bool * bool) :=
  let! image := of_result (match docker_image task with
                           | Some image => Ok image
                           | None => Raise (KeyError (str "docker_image"))
                           end) in
  let! _ := (if default true (pull_image task) then
               let! _ := tell (print (str "Pulling docker image: " ++ image)) in
               _pull_image image
             else ret tt) in
  let! cwd := ask os_getcwd in
  let! args := of_result (_expand_args cwd inputs task_inputs tempdir
                            (default [] (container_args task))) in
  let! (print_stderr, print_stdout) := declare_streams task_outputs (true, true) in
  let! uid := ask os_getuid in
  let command := docker_command task uid tempdir image args in
  let! _ := tell (print (str "Running container: " ++ DQUOTE ::
                           Py.join (str " ") command ++ [DQUOTE])) in
  ret (command, print_stdout, print_stderr).

(** [girder_worker.utils.run_process] on the current state. *)
Definition container_run (command : list pystr) (print_stdout print_stderr : bool)
    : M W Z :=
  λ st, match run_process command (outputs st) print_stdout print_stderr (world st) with
        | (Ok (returncode, outs), w) => (Ok returncode, {| world := w; outputs := outs |})
        | (Raise e, w) => (Raise e, {| world := w; outputs := outputs st |})
        end.

(** The path on the host of a filepath output (lines 188 to 194). *)
Definition host_path (tempdir name : pystr) (task_output : dict) : pystr :=
  let path := effective_path name task_output in
  let path := if negb (startswith (str "/") path) then DATA_SLASH ++ path else path in
  replace_first DATA tempdir path.

(** The body of the loop of lines 186 to 197, for one output. *)
Definition extract_output (tempdir name : pystr) (task_output : dict) : M W unit :=
  if is_filepath task_output then
    let path := host_path tempdir name task_output in
    let! found := ask (λ w, os_path_exists w path) in
    if negb found then raise (missing_output_error path)
    else set_script_data name path
  else ret tt.

Fixpoint extract_outputs (tempdir : pystr) (task_outputs : items) : M W unit :=
  match task_outputs with
  | [] => ret tt
  | (name, task_output) :: rest =>
      let! _ := extract_output tempdir name task_output in
      extract_outputs tempdir rest
  end.

(** Lines 181 to 202 of [run]: what follows a container that exited
    with status 0. *)
Definition run_collect (task_outputs : items) (tempdir : option pystr) : M W unit :=
  let! _ := tell (print (str "Garbage collecting old containers and images.")) in
  let! tempdir := of_result (match tempdir with
                             | Some t => Ok t
                             | None => Raise (AttributeError (str "endswith"))
                             end) in
  let gc_dir := PosixPath.join tempdir [str "docker_gc_scratch"] in
  let! _ := try (os_mkdir gc_dir) in
  let! p := _docker_gc gc_dir in
  let! _ := extract_outputs tempdir task_outputs in
  let! returncode := call (wait p) in
  if bool_decide (returncode ≠ 0%Z) then raise (gc_error returncode)
  else ret tt.

(** [run(task, inputs, outputs, task_inputs, task_outputs, **kwargs)];
    [outputs] is in the state, [tempdir] is [kwargs.get('_tempdir')]. *)
Definition run (task : task_spec) (inputs : gmap pystr dict)
    (task_inputs task_outputs : items) (tempdir : option pystr) : M W unit :=
  let! (command, print_stdout, print_stderr) :=
    run_prepare task inputs task_inputs task_outputs tempdir in
  let! returncode := container_run command print_stdout print_stderr in
  if bool_decide (returncode ≠ 0%Z) then raise (run_error returncode)
  else run_collect task_outputs tempdir.
End run.

(** * Properties *)

(** ** Strings *)

Lemma startswith_prefix (p s : pystr) : startswith p s = true ↔ p `prefix_of` s.
Proof.
  revert s; induction p as [|a p IH]; intros s; simpl.
  - split; [intros _; apply prefix_nil | done].
  - destruct s as [|b s].
    + split; [done | intros Hp; by apply prefix_nil_inv in Hp].
    + destruct (decide (a = b)) as [->|Hne].
      * rewrite IH. split; [apply prefix_cons | apply prefix_cons_inv_2].
      * split; [done | intros Hp; by apply prefix_cons_inv_1 in Hp].
Qed.

Lemma startswith_app (p s : pystr) : startswith p (p ++ s) = true.
Proof. apply startswith_prefix. by exists s. Qed.

Lemma startswith_false (p s : pystr) : startswith p s = false ↔ ¬ p `prefix_of` s.
Proof.
  rewrite <- startswith_prefix. destruct (startswith p s); split; done.
Qed.

(** [str(n)] is the decimal numeral of [n]: reading it gives [n] back,
    so that different integers have different numerals. *)
Lemma to_int_proper (z : Z) :
  Z.to_int z ≠ Decimal.Pos Decimal.Nil ∧ Z.to_int z ≠ Decimal.Neg Decimal.Nil.
Proof.
  destruct z as [|p|p]; simpl; split; try discriminate;
    intros [= Hnil]; by apply DecimalPos.Unsigned.to_uint_nonnil in Hnil.
Qed.

Lemma str_of_Z_inj (a b : Z) : str_of_Z a = str_of_Z b → a = b.
Proof.
  unfold str_of_Z, str. intros Heq.
  apply (f_equal string_of_list_ascii) in Heq.
  rewrite !string_of_list_ascii_of_string in Heq.
  apply (f_equal NilZero.int_of_string) in Heq.
  destruct (to_int_proper a), (to_int_proper b).
  rewrite !NilZero.isi in Heq by done.
  injection Heq as Heq. by apply DecimalZ.to_int_inj.
Qed.

Lemma str_of_Z_read (z : Z) :
  NilZero.int_of_string (string_of_list_ascii (str_of_Z z)) = Some (Z.to_int z).
Proof.
  unfold str_of_Z, str. rewrite string_of_list_ascii_of_string.
  destruct (to_int_proper z). by apply NilZero.isi.
Qed.

(** ** The output validator *)

(** The two ways a descriptor is refused: a filepath output whose
    effective path is absolute and not under ["/data/"], or any other
    output whose id is neither [_stdout] nor [_stderr]. *)
Definition refused (name : pystr) (spec : dict) : Prop :=
  (spec !! str "target" = Some FILEPATH
   ∧ str "/" `prefix_of` effective_path name spec
   ∧ ¬ DATA_SLASH `prefix_of` effective_path name spec)
  ∨ (spec !! str "target" ≠ Some FILEPATH ∧ name ≠ STDOUT ∧ name ≠ STDERR).

Lemma validate_cons name spec rest :
  validate_task_outputs ((name, spec) :: rest) =
    if is_filepath spec then
      if startswith (str "/") (effective_path name spec)
         && negb (startswith DATA_SLASH (effective_path name spec))
      then Raise (TaskSpecValidationError invalid_path_message)
      else validate_task_outputs rest
    else if negb (bool_decide (name ∈ [STDOUT; STDERR]))
      then Raise (TaskSpecValidationError invalid_output_message)
      else validate_task_outputs rest.
Proof. reflexivity. Qed.

Lemma refused_head name spec :
  refused name spec ↔
    (if is_filepath spec
     then startswith (str "/") (effective_path name spec)
          && negb (startswith DATA_SLASH (effective_path name spec))
     else negb (bool_decide (name ∈ [STDOUT; STDERR]))) = true.
Proof.
  unfold refused, is_filepath. case_bool_decide as Ht.
  - rewrite andb_true_iff, negb_true_iff, startswith_prefix, startswith_false.
    naive_solver.
  - rewrite negb_true_iff, bool_decide_eq_false.
    rewrite !elem_of_cons, elem_of_nil. naive_solver.
Qed.

Lemma validate_raises_iff (task_outputs : items) :
  is_Raise (validate_task_outputs task_outputs)
  ↔ Exists (λ '(name, spec), refused name spec) task_outputs.
Proof.
  induction task_outputs as [|[name spec] rest IH].
  - simpl. split; [done | intros Hex; inversion Hex].
  - rewrite validate_cons, Exists_cons, (refused_head name spec), <- IH.
    destruct (is_filepath spec);
      match goal with |- context [if ?b then Raise _ else _] => destruct b end;
      simpl; naive_solver.
Qed.

Lemma validate_raises_kind (task_outputs : items) e :
  validate_task_outputs task_outputs = Raise e →
  e = TaskSpecValidationError invalid_path_message
  ∨ e = TaskSpecValidationError invalid_output_message.
Proof.
  induction task_outputs as [|[name spec] rest IH]; [done|].
  rewrite validate_cons.
  destruct (is_filepath spec);
    match goal with |- context [if ?b then Raise _ else _] => destruct b end;
    naive_solver.
Qed.


Lemma validate_error_iff (task_outputs : items) :
  (∃ msg, validate_task_outputs task_outputs = Raise (TaskSpecValidationError msg))
  ↔ Exists (λ '(name, spec), refused name spec) task_outputs.
Proof.
  rewrite <- validate_raises_iff. split.
  - intros [msg ->]. exact I.
  - destruct (validate_task_outputs task_outputs) as [|e] eqn:He; [done|].
    intros _. destruct (validate_raises_kind _ _ He) as [-> | ->]; eauto.
Qed.

(** C3: [validate_task_outputs] raises, and then it is a
    [TaskSpecValidationError], exactly when some descriptor is a
    filepath output whose effective path (its [path], or its id by
    default) is absolute without starting with ["/data/"], or is not a
    filepath output and is named neither [_stdout] nor [_stderr];
    otherwise it returns. A filepath output with a relative path is not
    refused, and alone it passes. *)
Theorem validate_task_outputs_spec :
  ∀ task_outputs : items,
    ((∃ msg, validate_task_outputs task_outputs = Raise (TaskSpecValidationError msg))
     ↔ Exists (λ '(name, spec), refused name spec) task_outputs)
    ∧ (validate_task_outputs task_outputs = Ok tt
       ↔ ¬ Exists (λ '(name, spec), refused name spec) task_outputs)
    ∧ (∀ name spec,
         (is_filepath spec = true ∧ ¬ str "/" `prefix_of` effective_path name spec)
         → ¬ refused name spec ∧ validate_task_outputs [(name, spec)] = Ok tt).
Proof.
  intros task_outputs.
  pose proof (validate_raises_iff task_outputs) as Hiff.
  split; [apply validate_error_iff|split].
  - rewrite <- Hiff.
    destruct (validate_task_outputs task_outputs) as [[]|e]; simpl; naive_solver.
  - intros name spec [Hfp Hrel].
    assert (Hn : ¬ refused name spec).
    { unfold refused. unfold is_filepath in Hfp.
      apply bool_decide_eq_true in Hfp. naive_solver. }
    split; [done|].
    pose proof (validate_raises_iff [(name, spec)]) as H1.
    destruct (validate_task_outputs [(name, spec)]) as [[]|e]; [done|].
    exfalso. apply Hn. simpl in H1. destruct H1 as [H1 _].
    specialize (H1 I). by apply Exists_cons in H1 as [H1|H1%Exists_nil].
Qed.

(** C10: a filepath output whose effective path is ["/data"] followed
    by anything that does not begin with a slash (nothing, as in
    ["/data"] itself, or more letters, as in ["/datax"]) makes
    [validate_task_outputs] raise [TaskSpecValidationError], wherever it
    stands among the outputs: an absolute path is accepted only with
    the prefix ["/data/"], trailing slash included. Alone, such an
    output is refused with the message about filepath paths. *)
Theorem validate_rejects_bare_data_mount :
  ∀ (before after : items) (name : pystr) (spec : dict) (suffix : pystr),
    is_filepath spec = true →
    effective_path name spec = DATA ++ suffix →
    ¬ str "/" `prefix_of` suffix →
    (∃ msg, validate_task_outputs (before ++ (name, spec) :: after)
            = Raise (TaskSpecValidationError msg))
    ∧ validate_task_outputs [(name, spec)]
      = Raise (TaskSpecValidationError invalid_path_message).
Proof.
  intros before after name spec suffix Hfp Hpath Hsuffix.
  assert (Hslash : startswith (str "/") (effective_path name spec) = true).
  { rewrite Hpath. apply startswith_prefix. by eexists. }
  assert (Hdata : startswith DATA_SLASH (effective_path name spec) = false).
  { rewrite Hpath. apply startswith_false. intros [k Hk].
    apply Hsuffix. exists k. unfold DATA, DATA_SLASH in Hk. simpl in Hk.
    by simplify_eq. }
  split.
  - apply validate_error_iff, Exists_app. right. apply Exists_cons_hd.
    apply refused_head. by rewrite Hfp, Hslash, Hdata.
  - rewrite validate_cons, Hfp, Hslash, Hdata. reflexivity.
Qed.

Lemma validate_rejects_bare_data_mount_witness :
  let spec : dict := {[ str "target" := FILEPATH; str "path" := DATA ]} in
  let stdout : dict := ∅ in
  is_filepath spec = true
  ∧ effective_path (str "result") spec = DATA ++ []
  ∧ (∃ msg, validate_task_outputs ([(STDOUT, stdout)] ++ (str "result", spec) :: [])
            = Raise (TaskSpecValidationError msg))
  ∧ validate_task_outputs [(str "result", spec)]
    = Raise (TaskSpecValidationError invalid_path_message).
Proof.
  split; [vm_compute; reflexivity|]. split; [vm_compute; reflexivity|].
  apply (validate_rejects_bare_data_mount [(STDOUT, ∅)] [] (str "result")
           {[ str "target" := FILEPATH; str "path" := DATA ]} []).
  - vm_compute; reflexivity.
  - vm_compute; reflexivity.
  - apply startswith_false. vm_compute; reflexivity.
Defined.

(** The path ["/datax"], given as the id of an output without [path],
    is refused as well, while ["/data/x"] passes. *)
Example validate_datax :
  validate_task_outputs [(str "/datax", {[ str "target" := FILEPATH ]})]
  = Raise (TaskSpecValidationError invalid_path_message)
  ∧ validate_task_outputs [(str "/data/x", {[ str "target" := FILEPATH ]})] = Ok tt.
Proof. split; vm_compute; reflexivity. Qed.

(** ** Scanning: [replace] and [findall] *)

Lemma replace_from_skip (old new : pystr) (k : nat) (s : pystr) :
  replace_from old new k s = replace_from old new 0 (drop k s).
Proof.
  revert k; induction s as [|c s IH]; intros [|k]; simpl; done.
Qed.

(** The scan of [replace], one occurrence or one character at a time. *)
Lemma replace_step (old new s : pystr) :
  old ≠ [] →
  replace old new s =
    if startswith old s then new ++ replace old new (drop (length old) s)
    else match s with
         | [] => []
         | c :: s' => c :: replace old new s'
         end.
Proof.
  intros Hold. destruct old as [|o old]; [done|]. unfold replace.
  destruct s as [|c s]; [done|].
  cbn [replace_from]. destruct (startswith (o :: old) (c :: s)); [|done].
  rewrite replace_from_skip. simpl. by rewrite Nat.sub_0_r.
Qed.

(** [old] occurs in [s]. *)
Definition occurs (old s : pystr) : Prop := ∃ pre post, s = pre ++ old ++ post.

Lemma occurs_cons (old : pystr) (c : ascii) (s : pystr) :
  occurs old (c :: s) ↔ old `prefix_of` (c :: s) ∨ occurs old s.
Proof.
  split.
  - intros ([|x pre] & post & Heq).
    + left. by exists post.
    + right. exists pre, post. by simplify_eq/=.
  - intros [[post ->] | (pre & post & ->)].
    + by exists [], post.
    + by exists (c :: pre), post.
Qed.

(** Without an occurrence, [replace] changes nothing. *)
Lemma replace_absent (old new s : pystr) :
  old ≠ [] → ¬ occurs old s → replace old new s = s.
Proof.
  intros Hold. induction s as [|c s IH]; intros Hno.
  - rewrite replace_step by done. destruct old; [done|]. reflexivity.
  - rewrite replace_step by done.
    rewrite occurs_cons in Hno.
    destruct (startswith old (c :: s)) eqn:Hs.
    + apply startswith_prefix in Hs. tauto.
    + f_equal. apply IH. tauto.
Qed.

Lemma findall_from_skip (k : nat) (s : pystr) :
  findall_from k s = findall (drop k s).
Proof.
  unfold findall. revert k; induction s as [|c s IH]; intros [|k]; simpl; done.
Qed.

(** The scan of [findall], one match or one character at a time. *)
Lemma findall_step (s : pystr) :
  findall s =
    match s with
    | [] => []
    | _ :: s' =>
        match regex_match s with
        | Some inputId => inputId :: findall (drop (length (placeholder inputId)) s)
        | None => findall s'
        end
    end.
Proof.
  destruct s as [|c s]; [done|]. unfold findall at 1. cbn [findall_from].
  destruct (regex_match (c :: s)) as [inputId|]; [|done].
  rewrite findall_from_skip. unfold placeholder, OPEN. simpl. done.
Qed.

Lemma take_drop_until (c : ascii) (s : pystr) :
  take_until c s ++ drop_until c s = s.
Proof. induction s as [|x s IH]; simpl; [done|]. case_decide; simpl; congruence. Qed.

Lemma take_until_notin (c : ascii) (s : pystr) : c ∉ take_until c s.
Proof.
  induction s as [|x s IH]; simpl; [apply not_elem_of_nil|].
  case_decide; [apply not_elem_of_nil|]. rewrite not_elem_of_cons. naive_solver.
Qed.

Lemma drop_until_head (c : ascii) (s : pystr) x r :
  drop_until c s = x :: r → x = c.
Proof. induction s as [|y s IH]; simpl; [done|]. case_decide; naive_solver. Qed.

Lemma take_until_app (c : ascii) (a b : pystr) :
  c ∉ a → take_until c (a ++ c :: b) = a ∧ drop_until c (a ++ c :: b) = c :: b.
Proof.
  induction a as [|x a IH]; simpl; intros Hn.
  - by rewrite !decide_True.
  - apply not_elem_of_cons in Hn as [? ?]. rewrite !decide_False by done.
    destruct IH as [-> ->]; done.
Qed.

(** What the regular expression matches at the head of a string: a
    placeholder whose id is not empty and has no closing brace. *)
Lemma regex_match_spec (s inputId : pystr) :
  regex_match s = Some inputId
  ↔ inputId ≠ [] ∧ CLOSE ∉ inputId ∧ placeholder inputId `prefix_of` s.
Proof.
  unfold regex_match. destruct (startswith OPEN s) eqn:Hs.
  - apply startswith_prefix in Hs as [r ->].
    rewrite drop_app_length.
    pose proof (take_drop_until CLOSE r) as Hr.
    pose proof (take_until_notin CLOSE r) as Hnotin.
    split.
    + destruct (take_until CLOSE r) as [|x i] eqn:Ht; [done|].
      destruct (drop_until CLOSE r) as [|y d] eqn:Hd; [done|].
      intros [= <-]. split; [done|]. split; [done|].
      apply drop_until_head in Hd as Hy. subst y.
      exists d. unfold placeholder. rewrite <- Hr. by rewrite <- !app_assoc.
    + intros (Hne & Hnotin' & [post Hpost]).
      unfold placeholder in Hpost. rewrite <- !app_assoc in Hpost.
      apply app_inv_head in Hpost. subst r. simpl.
      destruct (take_until_app CLOSE inputId post Hnotin') as [-> ->].
      by destruct inputId.
  - split; [done|]. intros (_ & _ & [post ->]).
    unfold placeholder in Hs. rewrite <- app_assoc in Hs.
    by rewrite startswith_app in Hs.
Qed.

(** [s] contains a placeholder: ["$input{"], an id that is not empty
    and has no closing brace, then ["}"]. *)
Definition has_placeholder (s : pystr) : Prop :=
  ∃ inputId, inputId ≠ [] ∧ CLOSE ∉ inputId ∧ occurs (placeholder inputId) s.

Lemma findall_nil_iff (s : pystr) : findall s = [] ↔ ¬ has_placeholder s.
Proof.
  induction s as [|c s IH]; rewrite findall_step.
  - split; [|done]. intros _ (inputId & _ & _ & pre & post & Heq).
    unfold placeholder, OPEN in Heq. by destruct pre.
  - destruct (regex_match (c :: s)) as [inputId|] eqn:Hm.
    + split; [done|]. intros Hno. exfalso. apply Hno.
      apply regex_match_spec in Hm as (Hne & Hnotin & [post Hpost]).
      exists inputId. split; [done|]. split; [done|]. exists [], post. done.
    + rewrite IH. unfold has_placeholder.
      split; intros Hno (inputId & Hne & Hnotin & Hocc); apply Hno.
      * apply occurs_cons in Hocc as [Hp|Hocc]; [|eauto 6].
        assert (regex_match (c :: s) = Some inputId) by by apply regex_match_spec.
        congruence.
      * exists inputId. rewrite occurs_cons. eauto.
Qed.

(** Where [old] occurs, [replace] rewrites a first occurrence, before
    which there is none, and goes on after it. *)
Lemma replace_decompose (old new s : pystr) :
  old ≠ [] →
  (¬ occurs old s ∧ replace old new s = s)
  ∨ (∃ pre post, s = pre ++ old ++ post ∧ ¬ occurs old pre
                 ∧ replace old new s = pre ++ new ++ replace old new post).
Proof.
  intros Hold. induction s as [|x s IH].
  - left. split; [|by apply replace_absent; [|intros (pre & post & Heq);
      destruct pre, old]].
    intros (pre & post & Heq). by destruct pre, old.
  - rewrite (replace_step old new (x :: s)) by done.
    destruct (startswith old (x :: s)) eqn:Hs.
    + right. apply startswith_prefix in Hs as [post Hpost].
      exists [], post. rewrite Hpost, drop_app_length. split; [done|].
      split; [|done]. intros (pre & post' & Heq). by destruct pre, old.
    + apply startswith_false in Hs.
      destruct IH as [[Hno Heq] | (pre & post & Heq & Hno & Hrep)].
      * left. rewrite Heq. split; [|done]. rewrite occurs_cons. tauto.
      * right. exists (x :: pre), post. rewrite Hrep, Heq. split; [done|].
        split; [|done]. rewrite occurs_cons. intros [[k Hk] | Hocc]; [|done].
        apply Hs. exists (k ++ old ++ post). rewrite Heq.
        change (x :: pre ++ old ++ post) with ((x :: pre) ++ old ++ post).
        rewrite Hk, <- app_assoc. done.
Qed.

(** An occurrence in a concatenation lies in one of the two parts or
    straddles them. *)
Lemma occurs_app (old u v : pystr) :
  occurs old (u ++ v) →
  occurs old u ∨ occurs old v
  ∨ ∃ l1 l2, l1 ≠ [] ∧ l2 ≠ [] ∧ old = l1 ++ l2
             ∧ l1 `suffix_of` u ∧ l2 `prefix_of` v.
Proof.
  intros (a & b & Hab).
  apply app_eq_app in Hab as [l [[Hu Hv] | [Ha Hv]]].
  - apply app_eq_app in Hv as [l2 [[Hl Hb] | [Hl Hb]]].
    + destruct l as [|x l].
      * right; left. exists [], b. simpl in *. by subst.
      * destruct l2 as [|y l2].
        -- left. exists a, []. rewrite Hu, Hl. by rewrite !app_nil_r.
        -- right; right. exists (x :: l), (y :: l2).
           repeat split; try done; [by exists a | by exists b].
    + left. exists a, l2. by rewrite Hu, Hl.
  - right; left. exists l, b. done.
Qed.

(** When the first character of [old] is not in [new] and the first
    character of [new] is not in [old], replacing leaves no occurrence
    of [old] behind. *)
Lemma replace_clean (old new s : pystr) (c n : ascii) (old' new' : pystr) :
  old = c :: old' → new = n :: new' → c ∉ new → n ∉ old →
  ¬ occurs old (replace old new s).
Proof.
  intros Hold Hnew Hc Hn.
  assert (Hne : old ≠ []) by (by subst old).
  remember (length s) as len eqn:Hlen. revert s Hlen.
  induction len as [len IH] using lt_wf_ind. intros s Hlen.
  destruct (replace_decompose old new s Hne)
    as [[Hno ->] | (pre & post & Heq & Hno & ->)]; [done|].
  assert (Hpost : ¬ occurs old (replace old new post)).
  { apply (IH (length post)); [|done]. subst s len old.
    rewrite !length_app. simpl. lia. }
  assert (Hhead : ∀ l1 l2 u, l1 ≠ [] → old = l1 ++ l2 → l1 `suffix_of` u → c ∈ u).
  { intros [|x l1] l2 u Hl1 Hl [k ->]; [done|].
    rewrite Hold in Hl. injection Hl as -> _.
    apply elem_of_app. right. apply elem_of_cons. by left. }
  intros Hocc. apply occurs_app in Hocc
    as [Hocc | [Hocc | (l1 & l2 & Hl1 & Hl2 & Hl & Hsuf & Hpre)]]; [done|..].
  - apply occurs_app in Hocc
      as [(a & b & Hab) | [Hocc | (l1 & l2 & Hl1 & Hl2 & Hl & Hsuf & Hpre)]];
      [|done|].
    + apply Hc. rewrite Hab, Hold.
      apply elem_of_app. right. apply elem_of_cons. by left.
    + apply Hc. by apply (Hhead l1 l2).
  - destruct l2 as [|y l2]; [done|]. destruct Hpre as [k Hk].
    rewrite Hnew in Hk. injection Hk as <- _.
    apply Hn. rewrite Hl. apply elem_of_app. right. apply elem_of_cons. by left.
Qed.

Lemma replace_idempotent (old new s : pystr) (c n : ascii) (old' new' : pystr) :
  old = c :: old' → new = n :: new' → c ∉ new → n ∉ old →
  replace old new (replace old new s) = replace old new s.
Proof.
  intros Hold Hnew Hc Hn. apply replace_absent; [by subst old|].
  by eapply replace_clean.
Qed.

(** ** Argument expansion *)

Arguments replace : simpl never.

(** Replacing a text in itself leaves the replacement. *)
Lemma replace_whole (old new : pystr) : old ≠ [] → replace old new old = new.
Proof.
  intros Hold. rewrite replace_step by done.
  rewrite <- (app_nil_r old) at 2. rewrite startswith_app.
  rewrite drop_all. destruct old as [|c old]; [done|].
  unfold replace. cbn [replace_from]. by rewrite app_nil_r.
Qed.

Section expand_properties.
Variable cwd : pystr.
Variable inputs : gmap pystr dict.
Variable taskInputs : items.
Variable tmpDir : option pystr.


(** The outer loop returns the expansions of the arguments, one by
    one and in order, after what was accumulated, or raises with the
    first argument whose expansion raises. *)
Lemma expand_loop_ok (newArgs args out : list pystr) :
  expand_loop cwd inputs taskInputs tmpDir newArgs args = Ok out
  ↔ ∃ l, out = newArgs ++ l ∧ Forall2 (λ arg arg', expand_arg cwd inputs taskInputs tmpDir arg = Ok arg') args l.
Proof.
  revert newArgs; induction args as [|arg args IH]; intros newArgs; simpl.
  - split.
    + intros [= <-]. exists []. by rewrite app_nil_r.
    + intros (l & -> & Hl). apply Forall2_nil_inv_l in Hl as ->.
      by rewrite app_nil_r.
  - destruct (expand_arg cwd inputs taskInputs tmpDir arg) as [arg'|e] eqn:He; simpl.
    + rewrite IH. split.
      * intros (l & -> & Hl). exists (arg' :: l).
        rewrite <- app_assoc. split; [done|]. by constructor.
      * intros (l & -> & Hl).
        apply Forall2_cons_inv_l in Hl as (a & l' & Ha & Hl' & ->).
        exists l'. rewrite <- app_assoc. split; [|done].
        simpl. congruence.
    + split; [done|]. intros (l & _ & Hl).
      apply Forall2_cons_inv_l in Hl as (a & l' & Ha & _). congruence.
Qed.

Lemma expand_args_ok (args out : list pystr) :
  _expand_args cwd inputs taskInputs tmpDir args = Ok out
  ↔ Forall2 (λ arg arg', expand_arg cwd inputs taskInputs tmpDir arg = Ok arg') args out.
Proof.
  unfold _expand_args. rewrite expand_loop_ok. simpl. naive_solver.
Qed.

Lemma expand_arg_plain (arg : pystr) :
  ¬ has_placeholder arg → expand_arg cwd inputs taskInputs tmpDir arg = Ok arg.
Proof.
  intros Hno. apply findall_nil_iff in Hno.
  unfold expand_arg. by rewrite Hno.
Qed.

(** C8: when [_expand_args cwd inputs taskInputs tmpDir] returns, the list it returns has one
    argument per argument given, in the same order: the one at each
    position is the expansion of the one given at that position, and
    is that argument itself when it contains no placeholder. On
    arguments that all are without placeholder it does return, and
    returns them as they are. *)
Theorem expand_args_one_to_one :
  ∀ args : list pystr,
    (∀ out, _expand_args cwd inputs taskInputs tmpDir args = Ok out →
       length out = length args
       ∧ ∀ (i : nat) (arg : pystr), args !! i = Some arg →
           ∃ arg', out !! i = Some arg' ∧ expand_arg cwd inputs taskInputs tmpDir arg = Ok arg'
                   ∧ (¬ has_placeholder arg → arg' = arg))
    ∧ (Forall (λ arg, ¬ has_placeholder arg) args → _expand_args cwd inputs taskInputs tmpDir args = Ok args).
Proof.
  intros args. split.
  - intros out Hout. apply expand_args_ok in Hout.
    split; [symmetry; by eapply Forall2_length|].
    intros i arg Hi.
    destruct (Forall2_lookup_l _ _ _ _ _ Hout Hi) as (arg' & Hi' & Harg).
    exists arg'. split; [done|]. split; [done|].
    intros Hno. apply expand_arg_plain in Hno. congruence.
  - intros Hall. apply expand_args_ok.
    induction Hall as [|arg args Harg Hall IH]; constructor; [|done].
    by apply expand_arg_plain.
Qed.

(** *** Ids that are not supplied *)

Lemma expand_step_unsupplied (arg inputId : pystr) :
  inputs !! inputId = None → inputId ≠ TEMPDIR → expand_step cwd inputs taskInputs tmpDir arg inputId = Ok arg.
Proof.
  intros Hnone Hne. unfold expand_step.
  rewrite bool_decide_eq_false_2 by (rewrite Hnone; by intros [? ?]).
  by rewrite bool_decide_eq_false_2.
Qed.

Lemma expand_step_tempdir (arg : pystr) :
  inputs !! TEMPDIR = None →
  expand_step cwd inputs taskInputs tmpDir arg TEMPDIR = Ok (replace (placeholder TEMPDIR) DATA arg).
Proof.
  intros Hnone. unfold expand_step.
  rewrite bool_decide_eq_false_2 by (rewrite Hnone; by intros [? ?]).
  by rewrite bool_decide_eq_true_2.
Qed.

Lemma expand_steps_unsupplied (arg : pystr) (ids : list pystr) :
  (∀ inputId, inputId ∈ ids → inputs !! inputId = None ∧ inputId ≠ TEMPDIR) →
  expand_steps cwd inputs taskInputs tmpDir arg ids = Ok arg.
Proof.
  induction ids as [|inputId ids IH]; intros Hids; simpl; [done|].
  destruct (Hids inputId) as [Hnone Hne]; [set_solver|].
  rewrite expand_step_unsupplied by done. simpl. apply IH.
  intros i Hi. apply Hids. set_solver.
Qed.

Lemma tempdir_clean (arg : pystr) :
  ¬ occurs (placeholder TEMPDIR) (replace (placeholder TEMPDIR) DATA arg).
Proof.
  eapply replace_clean; [reflexivity | reflexivity | |];
    unfold DATA, placeholder, OPEN, TEMPDIR, CLOSE; simpl;
    rewrite !elem_of_cons, elem_of_nil; naive_solver.
Qed.

(** With nothing but [_tempdir] to expand, the steps replace
    [$input{_tempdir}] once and for all. *)
Lemma expand_steps_tempdir (arg : pystr) (ids : list pystr) :
  (∀ inputId, inputId ∈ ids → inputs !! inputId = None) →
  expand_steps cwd inputs taskInputs tmpDir arg ids =
    Ok (if bool_decide (TEMPDIR ∈ ids)
        then replace (placeholder TEMPDIR) DATA arg else arg).
Proof.
  revert arg; induction ids as [|inputId ids IH]; intros arg Hids;
    cbn [expand_steps]; [done|].
  assert (Hrest : ∀ i, i ∈ ids → inputs !! i = None).
  { intros i Hi. apply Hids. by apply list_elem_of_further. }
  destruct (decide (inputId = TEMPDIR)) as [->|Hne].
  - rewrite expand_step_tempdir by (apply Hids; apply list_elem_of_here).
    cbn [bind]. rewrite IH by done.
    rewrite (bool_decide_eq_true_2 (TEMPDIR ∈ TEMPDIR :: ids))
      by apply list_elem_of_here.
    case_bool_decide; [|done]. f_equal.
    apply replace_absent; [done | apply tempdir_clean].
  - rewrite expand_step_unsupplied
      by (try apply Hids; try apply list_elem_of_here; done).
    cbn [bind]. rewrite IH by done.
    rewrite (bool_decide_ext (TEMPDIR ∈ inputId :: ids) (TEMPDIR ∈ ids)); [done|].
    rewrite elem_of_cons. naive_solver.
Qed.

(** C7, as the code has it: a placeholder whose id is absent from the
    resolved inputs and is not the reserved [_tempdir] is passed
    over, the step for it leaving the argument being expanded as it
    is; arguments whose placeholders are all of this kind are returned
    unchanged, so that expanding the result again gives the same
    result. *)
Theorem unsupplied_placeholders_unchanged :
  ∀ args : list pystr,
    Forall (λ arg, Forall (λ inputId, inputs !! inputId = None ∧ inputId ≠ TEMPDIR)
                     (findall arg)) args →
    Forall (λ arg, Forall (λ inputId, ∀ current : pystr,
                             expand_step cwd inputs taskInputs tmpDir current inputId = Ok current)
                     (findall arg)) args
    ∧ _expand_args cwd inputs taskInputs tmpDir args = Ok args
    ∧ (let* out := _expand_args cwd inputs taskInputs tmpDir args in _expand_args cwd inputs taskInputs tmpDir out) = Ok args.
Proof.
  intros args Hids.
  assert (Hargs : _expand_args cwd inputs taskInputs tmpDir args = Ok args).
  { apply expand_args_ok, Forall2_same_length_lookup_2; [done|].
    intros i arg arg' Hi Hi'. assert (arg' = arg) as -> by congruence.
    apply expand_steps_unsupplied. intros inputId Hin.
    rewrite Forall_forall in Hids. specialize (Hids arg).
    rewrite Forall_forall in Hids. apply Hids; [|done].
    by eapply list_elem_of_lookup_2. }
  split; [|split; [done|]].
  - eapply Forall_impl; [exact Hids|]. intros arg Harg. simpl in Harg.
    eapply Forall_impl; [exact Harg|]. intros inputId [Hnone Hne] current.
    by apply expand_step_unsupplied.
  - rewrite Hargs. simpl. done.
Qed.

(** *** Ids that are supplied but not declared *)

Definition unknown_input_error (inputId : pystr) : exn :=
  Exception (str "No task input found with id = " ++ inputId).

(** No descriptor answers to [inputId]: each has an id, or else a
    name, and it is another one. *)
Definition undeclared (inputId : pystr) (tis : items) : Prop :=
  Forall (λ '(_, ti), ∃ tiId, descriptor_id ti = Ok tiId ∧ tiId ≠ inputId) tis.

Lemma transform_path_loop_undeclared (tis : items) (inputId : pystr) :
  undeclared inputId tis →
  transform_path_loop cwd inputs tmpDir tis inputId = Raise (unknown_input_error inputId).
Proof.
  induction 1 as [|[key ti] tis (tiId & Hid & Hne) Hrest IH]; simpl; [done|].
  rewrite Hid. simpl. by rewrite bool_decide_eq_false_2.
Qed.

Lemma expand_step_undeclared (arg inputId : pystr) :
  is_Some (inputs !! inputId) → undeclared inputId taskInputs →
  expand_step cwd inputs taskInputs tmpDir arg inputId = Raise (unknown_input_error inputId).
Proof.
  intros Hsome Hun. unfold expand_step.
  rewrite bool_decide_eq_true_2 by done.
  unfold _transform_path.
  by rewrite transform_path_loop_undeclared.
Qed.

Lemma expand_steps_app (arg : pystr) (ids1 ids2 : list pystr) :
  expand_steps cwd inputs taskInputs tmpDir arg (ids1 ++ ids2) =
    let* arg' := expand_steps cwd inputs taskInputs tmpDir arg ids1 in expand_steps cwd inputs taskInputs tmpDir arg' ids2.
Proof.
  revert arg; induction ids1 as [|i ids1 IH]; intros arg; simpl; [done|].
  destruct (expand_step cwd inputs taskInputs tmpDir arg i); simpl; [apply IH | done].
Qed.

Lemma expand_loop_app (newArgs args1 args2 : list pystr) :
  expand_loop cwd inputs taskInputs tmpDir newArgs (args1 ++ args2) =
    let* out := expand_loop cwd inputs taskInputs tmpDir newArgs args1 in expand_loop cwd inputs taskInputs tmpDir out args2.
Proof.
  revert newArgs; induction args1 as [|a args1 IH]; intros newArgs; simpl; [done|].
  destruct (expand_arg cwd inputs taskInputs tmpDir a); simpl; [apply IH | done].
Qed.

(** *** The reserved id [_tempdir] *)

Lemma expand_step_supplied (arg inputId : pystr) :
  is_Some (inputs !! inputId) →
  expand_step cwd inputs taskInputs tmpDir arg inputId
  = let* transformed := _transform_path cwd inputs taskInputs tmpDir inputId in
    Ok (replace (placeholder inputId) transformed arg).
Proof. intros Hsome. unfold expand_step. by rewrite bool_decide_eq_true_2. Qed.

(** The argument that is one placeholder expands to what the
    descriptors resolve its id to, when the id is supplied. *)
Lemma expand_args_placeholder (inputId : pystr) :
  is_Some (inputs !! inputId) →
  findall (placeholder inputId) = [inputId] →
  _expand_args cwd inputs taskInputs tmpDir [placeholder inputId]
  = let* transformed := _transform_path cwd inputs taskInputs tmpDir inputId in
    Ok [transformed].
Proof.
  intros Hsome Hfind. unfold _expand_args. cbn [expand_loop]. unfold expand_arg.
  rewrite Hfind. cbn [expand_steps]. rewrite expand_step_supplied by done.
  destruct (_transform_path cwd inputs taskInputs tmpDir inputId) as [transformed|e];
    cbn [bind]; [|done].
  rewrite replace_whole; [done | by destruct inputId].
Qed.

(** C1, as the code has it: the resolved inputs are looked at first.
    When they have no entry named [_tempdir], [$input{_tempdir}] stands
    for ["/data"]: the step for [_tempdir] replaces every
    [$input{_tempdir}] of the argument by ["/data"], whatever the
    descriptors and the temporary directory are; an argument in which
    [_tempdir] is found and whose other placeholders are not supplied
    comes out with ["/data"] in place of each [$input{_tempdir}], none
    being left; and the argument [$input{_tempdir}] alone comes out as
    ["/data"]. When they do have an entry named [_tempdir], the
    placeholder is resolved as that of any supplied input: the step
    replaces it by what [_transform_path] returns for [_tempdir] and
    raises what [_transform_path] raises, so that the argument
    [$input{_tempdir}] alone comes out as the value the descriptors
    resolve [_tempdir] to, which is ["/data"] only if they resolve it
    to ["/data"], and the expansion raises when no descriptor answers
    to [_tempdir]. *)
Theorem tempdir_expands_to_data_mount :
  (inputs !! TEMPDIR = None →
     (∀ arg, expand_step cwd inputs taskInputs tmpDir arg TEMPDIR
             = Ok (replace (placeholder TEMPDIR) DATA arg))
     ∧ (∀ arg,
          (TEMPDIR ∈ findall arg
           ∧ Forall (λ inputId, inputs !! inputId = None) (findall arg)) →
          expand_arg cwd inputs taskInputs tmpDir arg
          = Ok (replace (placeholder TEMPDIR) DATA arg)
          ∧ ¬ occurs (placeholder TEMPDIR) (replace (placeholder TEMPDIR) DATA arg))
     ∧ _expand_args cwd inputs taskInputs tmpDir [placeholder TEMPDIR] = Ok [DATA])
  ∧ (is_Some (inputs !! TEMPDIR) →
       (∀ arg, expand_step cwd inputs taskInputs tmpDir arg TEMPDIR
               = let* transformed := _transform_path cwd inputs taskInputs tmpDir TEMPDIR in
                 Ok (replace (placeholder TEMPDIR) transformed arg))
       ∧ _expand_args cwd inputs taskInputs tmpDir [placeholder TEMPDIR]
         = (let* transformed := _transform_path cwd inputs taskInputs tmpDir TEMPDIR in
            Ok [transformed])
       ∧ (_expand_args cwd inputs taskInputs tmpDir [placeholder TEMPDIR] = Ok [DATA]
          ↔ _transform_path cwd inputs taskInputs tmpDir TEMPDIR = Ok DATA)
       ∧ (undeclared TEMPDIR taskInputs →
          ∀ before after arg,
            _expand_args cwd inputs taskInputs tmpDir before = Ok after →
            TEMPDIR ∈ findall arg →
            (∀ inputId, inputId ∈ findall arg → inputId = TEMPDIR) →
            ∀ rest, _expand_args cwd inputs taskInputs tmpDir (before ++ arg :: rest)
                    = Raise (unknown_input_error TEMPDIR))).
Proof.
  split.
  - intros Hnone. split; [|split].
    + intros arg. by apply expand_step_tempdir.
    + intros arg [Hin Hids]. split; [|apply tempdir_clean].
      unfold expand_arg. rewrite expand_steps_tempdir by (by apply Forall_forall).
      by rewrite bool_decide_eq_true_2.
    + unfold _expand_args. cbn [expand_loop].
      unfold expand_arg.
      replace (findall (placeholder TEMPDIR)) with [TEMPDIR] by (vm_compute; done).
      cbn [expand_steps]. rewrite expand_step_tempdir by done.
      vm_compute. done.
  - intros Hsome.
    assert (Hone : _expand_args cwd inputs taskInputs tmpDir [placeholder TEMPDIR]
                   = (let* transformed := _transform_path cwd inputs taskInputs tmpDir TEMPDIR in
                      Ok [transformed])).
    { apply expand_args_placeholder; [done | vm_compute; reflexivity]. }
    split; [|split; [done|split]].
    + intros arg. by apply expand_step_supplied.
    + rewrite Hone.
      destruct (_transform_path cwd inputs taskInputs tmpDir TEMPDIR) as [transformed|e];
        cbn [bind]; [|done].
      split; [by intros [= ->] | by intros [= ->]].
    + intros Hun before after arg Hbefore Hin Honly rest.
      unfold _expand_args in *. rewrite expand_loop_app, Hbefore.
      cbn [bind expand_loop]. unfold expand_arg.
      destruct (findall arg) as [|inputId ids] eqn:Hfind;
        [by apply elem_of_nil in Hin|].
      assert (inputId = TEMPDIR) as -> by (apply Honly, list_elem_of_here).
      cbn [expand_steps]. by rewrite expand_step_undeclared.
Qed.

(** C6: when the id of a placeholder is among the resolved inputs and
    no input descriptor has it as its id (or as its name, for a
    descriptor without id), the lookup of [_transform_path cwd inputs taskInputs tmpDir] raises
    the exception "No task input found with id = ...", and so does the
    step for that placeholder; [_expand_args cwd inputs taskInputs tmpDir] then raises on every
    argument list in which the placeholder is found, and raises this
    very exception when the arguments and placeholders before it were
    expanded without error. *)
Theorem undeclared_input_raises :
  ∀ inputId : pystr,
    is_Some (inputs !! inputId) →
    undeclared inputId taskInputs →
    _transform_path cwd inputs taskInputs tmpDir inputId = Raise (unknown_input_error inputId)
    ∧ (∀ arg, expand_step cwd inputs taskInputs tmpDir arg inputId = Raise (unknown_input_error inputId))
    ∧ (∀ args, Exists (λ arg, inputId ∈ findall arg) args →
         is_Raise (_expand_args cwd inputs taskInputs tmpDir args))
    ∧ (∀ before before' arg ids1 ids2 arg1 after,
         (_expand_args cwd inputs taskInputs tmpDir before = Ok before'
          ∧ findall arg = ids1 ++ inputId :: ids2
          ∧ expand_steps cwd inputs taskInputs tmpDir arg ids1 = Ok arg1) →
         _expand_args cwd inputs taskInputs tmpDir (before ++ arg :: after) = Raise (unknown_input_error inputId)).
Proof.
  intros inputId Hsome Hun.
  assert (Hstep : ∀ arg, expand_step cwd inputs taskInputs tmpDir arg inputId = Raise (unknown_input_error inputId))
    by (intros; by apply expand_step_undeclared).
  split; [by apply transform_path_loop_undeclared|]. split; [done|]. split.
  - intros args Hex.
    destruct (_expand_args cwd inputs taskInputs tmpDir args) as [out|e] eqn:Hout; [|done]. exfalso.
    apply expand_args_ok in Hout.
    apply Exists_exists in Hex as (arg & Harg & Hin).
    apply list_elem_of_lookup_1 in Harg as [i Hi].
    destruct (Forall2_lookup_l _ _ _ _ _ Hout Hi) as (arg' & _ & Hexp).
    unfold expand_arg in Hexp.
    apply list_elem_of_split in Hin as (ids1 & ids2 & Hids).
    rewrite Hids, expand_steps_app in Hexp.
    destruct (expand_steps cwd inputs taskInputs tmpDir arg ids1); simpl in Hexp; [|done].
    by rewrite Hstep in Hexp.
  - intros before before' arg ids1 ids2 arg1 after (Hbefore & Hids & Harg1).
    unfold _expand_args in *. rewrite expand_loop_app, Hbefore.
    cbn [bind expand_loop]. unfold expand_arg.
    rewrite Hids, expand_steps_app, Harg1. simpl. by rewrite Hstep.
Qed.
End expand_properties.

(** *** The resolver on concrete arguments *)

(** A resolved input [foo], a file under the temporary directory. *)
Definition inputs_foo : gmap pystr dict :=
  {[ str "foo" := {[ SCRIPT_DATA := str "/tmp/job1/in.txt" ]} ]}.

Definition foo_filepath : items :=
  [(str "foo", {[ str "id" := str "foo"; str "target" := FILEPATH ]})].

Definition foo_plain : items :=
  [(str "foo", {[ str "name" := str "foo" ]})].

(** Scenario A of the specification, scenario B with the value of
    scenario A, and an argument without placeholder. *)
Example expand_scenarios :
  _expand_args (str "/") inputs_foo foo_filepath (Some (str "/tmp/job1"))
    [str "$input{foo}"; str "--verbose"] = Ok [str "/data/in.txt"; str "--verbose"]
  ∧ _expand_args (str "/") inputs_foo foo_plain (Some (str "/tmp/job1"))
      [str "$input{foo}"] = Ok [str "/tmp/job1/in.txt"].
Proof. split; vm_compute; reflexivity. Qed.

Lemma expand_args_one_to_one_witness :
  let args := [str "-i"; str "$input{foo}"; str "--out=/data/out"] in
  let out := [str "-i"; str "/data/in.txt"; str "--out=/data/out"] in
  _expand_args (str "/") inputs_foo foo_filepath (Some (str "/tmp/job1")) args = Ok out
  ∧ length out = length args
  ∧ ∃ arg', out !! 2 = Some arg' ∧ arg' = str "--out=/data/out".
Proof.
  pose proof (expand_args_one_to_one (str "/") inputs_foo foo_filepath
                (Some (str "/tmp/job1"))
                [str "-i"; str "$input{foo}"; str "--out=/data/out"]) as [Hret _].
  specialize (Hret [str "-i"; str "/data/in.txt"; str "--out=/data/out"]
                ltac:(vm_compute; reflexivity)) as [Hlen Hat].
  split; [vm_compute; reflexivity|]. split; [exact Hlen|].
  destruct (Hat 2 (str "--out=/data/out") eq_refl) as (arg' & Hout & _ & Hsame).
  exists arg'. split; [exact Hout|]. apply Hsame.
  apply findall_nil_iff. vm_compute; reflexivity.
Defined.

Lemma unsupplied_placeholders_unchanged_witness :
  let args := [str "--mask=$input{mask}"; str "$input{foo}.bak"; str "-v"] in
  let inputs : gmap pystr dict := {[ str "bar" := {[ SCRIPT_DATA := str "7" ]} ]} in
  _expand_args (str "/") inputs foo_plain None args = Ok args
  ∧ (let* out := _expand_args (str "/") inputs foo_plain None args in
     _expand_args (str "/") inputs foo_plain None out) = Ok args.
Proof.
  apply (unsupplied_placeholders_unchanged (str "/")
           {[ str "bar" := {[ SCRIPT_DATA := str "7" ]} ]} foo_plain None
           [str "--mask=$input{mask}"; str "$input{foo}.bak"; str "-v"]).
  apply (bool_decide_unpack _). vm_compute. reflexivity.
Defined.

(** The reading of C7 that the code does not follow: [_tempdir] is
    absent from the resolved inputs, it is the one placeholder of the
    argument, and the argument does not come out unchanged. *)
Lemma tempdir_placeholder_not_left_unchanged :
  let inputs : gmap pystr dict := ∅ in
  let arg := str "$input{_tempdir}" in
  inputs !! TEMPDIR = None
  ∧ findall arg = [TEMPDIR]
  ∧ _expand_args (str "/") inputs [] None [arg] = Ok [str "/data"]
  ∧ _expand_args (str "/") inputs [] None [arg] ≠ Ok [arg].
Proof. repeat split; try (vm_compute; reflexivity). vm_compute. discriminate. Qed.

(** A placeholder that is not supplied can also lose its text to the
    expansion of another one, when that one is written inside it. *)
Example nested_placeholder_rewritten :
  let inputs : gmap pystr dict := {[ str "b" := {[ SCRIPT_DATA := str "V" ]} ]} in
  let tis : items := [(str "b", {[ str "id" := str "b" ]})] in
  let arg := str "$input{b} $input{a$input{b}" in
  findall arg = [str "b"; str "a$input{b"]
  ∧ _expand_args (str "/") inputs tis None [arg] = Ok [str "V $input{aV"].
Proof. split; vm_compute; reflexivity. Qed.

Lemma tempdir_expands_to_data_mount_witness :
  let arg := str "--scratch=$input{_tempdir}/tmp:$input{_tempdir}:$input{mask}" in
  let supplied : gmap pystr dict := {[ TEMPDIR := {[ SCRIPT_DATA := str "/scratch" ]} ]} in
  let declared : items := [(TEMPDIR, {[ str "id" := TEMPDIR ]})] in
  (inputs_foo !! TEMPDIR = None
   ∧ expand_arg (str "/") inputs_foo foo_filepath (Some (str "/tmp/job1")) arg
     = Ok (str "--scratch=/data/tmp:/data:$input{mask}")
   ∧ _expand_args (str "/") inputs_foo foo_filepath (Some (str "/tmp/job1"))
       [placeholder TEMPDIR] = Ok [DATA])
  ∧ (is_Some (supplied !! TEMPDIR)
     ∧ _expand_args (str "/") supplied declared (Some (str "/tmp/job1"))
         [placeholder TEMPDIR] = Ok [str "/scratch"]
     ∧ _expand_args (str "/") supplied foo_plain (Some (str "/tmp/job1"))
         ([str "-v"] ++ str "--scratch=$input{_tempdir}" :: [str "$input{foo}"])
       = Raise (unknown_input_error TEMPDIR)).
Proof.
  assert (Hnone : inputs_foo !! TEMPDIR = None) by (vm_compute; reflexivity).
  assert (Hsome : is_Some (({[ TEMPDIR := {[ SCRIPT_DATA := str "/scratch" ]} ]}
                             : gmap pystr dict) !! TEMPDIR))
    by (rewrite lookup_singleton_eq; by eexists).
  split.
  - destruct (tempdir_expands_to_data_mount (str "/") inputs_foo foo_filepath
                (Some (str "/tmp/job1"))) as [Habsent _].
    destruct (Habsent Hnone) as (_ & Harg & Hone).
    split; [exact Hnone|]. split; [|exact Hone].
    destruct (Harg (str "--scratch=$input{_tempdir}/tmp:$input{_tempdir}:$input{mask}"))
      as [Hexp _].
    + split; apply (bool_decide_unpack _); vm_compute; reflexivity.
    + rewrite Hexp. vm_compute. reflexivity.
  - split; [exact Hsome|]. split.
    + destruct (tempdir_expands_to_data_mount (str "/")
                  {[ TEMPDIR := {[ SCRIPT_DATA := str "/scratch" ]} ]}
                  [(TEMPDIR, {[ str "id" := TEMPDIR ]})]
                  (Some (str "/tmp/job1"))) as [_ Hsupplied].
      destruct (Hsupplied Hsome) as (_ & Hone & _).
      rewrite Hone. vm_compute. reflexivity.
    + destruct (tempdir_expands_to_data_mount (str "/")
                  {[ TEMPDIR := {[ SCRIPT_DATA := str "/scratch" ]} ]}
                  foo_plain (Some (str "/tmp/job1"))) as [_ Hsupplied].
      destruct (Hsupplied Hsome) as (_ & _ & _ & Hraise).
      apply (Hraise ltac:(repeat constructor; exists (str "foo");
                          split; [vm_compute; reflexivity | vm_compute; discriminate])
               [str "-v"] [str "-v"]).
      * vm_compute; reflexivity.
      * apply (bool_decide_unpack _). vm_compute. reflexivity.
      * intros inputId Hin.
        replace (findall (str "--scratch=$input{_tempdir}")) with [TEMPDIR] in Hin
          by (vm_compute; reflexivity).
        by apply list_elem_of_singleton in Hin.
Defined.

(** The reading of C1 that the code does not follow: the resolved
    inputs have an entry named [_tempdir], and it is that entry, looked
    up through the descriptors, that [$input{_tempdir}] expands to; when
    no descriptor declares it the expansion raises. *)
Lemma tempdir_shadowed_by_input :
  let inputs : gmap pystr dict :=
    {[ TEMPDIR := {[ SCRIPT_DATA := str "/scratch" ]} ]} in
  let tis : items := [(TEMPDIR, {[ str "id" := TEMPDIR ]})] in
  is_Some (inputs !! TEMPDIR)
  ∧ _expand_args (str "/") inputs tis (Some (str "/tmp/job1")) [str "$input{_tempdir}"]
    = Ok [str "/scratch"]
  ∧ _expand_args (str "/") inputs tis (Some (str "/tmp/job1")) [str "$input{_tempdir}"]
    ≠ Ok [str "/data"]
  ∧ _expand_args (str "/") inputs [] (Some (str "/tmp/job1")) [str "$input{_tempdir}"]
    = Raise (unknown_input_error TEMPDIR).
Proof.
  split; [by eexists|].
  split; [vm_compute; reflexivity|]. split; [vm_compute; discriminate|].
  vm_compute; reflexivity.
Qed.

Lemma undeclared_input_raises_witness :
  let tis : items := [(str "bar", {[ str "id" := str "bar"; str "target" := FILEPATH ]});
                      (str "baz", {[ str "name" := str "baz" ]})] in
  is_Some (inputs_foo !! str "foo")
  ∧ undeclared (str "foo") tis
  ∧ _transform_path (str "/") inputs_foo tis (Some (str "/tmp/job1")) (str "foo")
    = Raise (unknown_input_error (str "foo"))
  ∧ _expand_args (str "/") inputs_foo tis (Some (str "/tmp/job1"))
      ([str "-v"] ++ str "--in=$input{missing},$input{foo}" :: [str "$input{bar}"])
    = Raise (unknown_input_error (str "foo")).
Proof.
  assert (Hsome : is_Some (inputs_foo !! str "foo")) by (by eexists).
  assert (Hun : undeclared (str "foo")
                  [(str "bar", {[ str "id" := str "bar"; str "target" := FILEPATH ]});
                   (str "baz", {[ str "name" := str "baz" ]})]).
  { repeat constructor.
    - exists (str "bar"). split; [vm_compute; reflexivity | vm_compute; discriminate].
    - exists (str "baz"). split; [vm_compute; reflexivity | vm_compute; discriminate]. }
  destruct (undeclared_input_raises (str "/") inputs_foo _ (Some (str "/tmp/job1"))
              (str "foo") Hsome Hun) as (Htp & _ & _ & Hargs).
  split; [exact Hsome|]. split; [exact Hun|]. split; [exact Htp|].
  apply (Hargs [str "-v"] [str "-v"] _ [str "missing"] [] (str "--in=$input{missing},$input{foo}")).
  repeat split; vm_compute; reflexivity.
Defined.

(** ** A host to run the executor on *)

(** A simulated host: a set of paths that exist, the worker's [docker]
    configuration section, what the external programs will answer, and
    a log of what the executor did to the outside (latest event last). *)
Inductive event : Type :=
  | Printed (line : pystr)
  | Communicated (args : list pystr)
  | Started (args : list pystr) (env : gmap pystr pystr)
  | Waited (pid : nat)
  | MadeDir (path : pystr)
  | Wrote (path data : pystr)
  | RanContainer (command : list pystr) (print_stdout print_stderr : bool).

Record sim : Type := {
  sim_cwd : pystr;
  sim_uid : Z;
  sim_environ : gmap pystr pystr;
  sim_paths : gset pystr;
  sim_executables : gset pystr;
  sim_config : gmap pystr pystr;
  sim_pull_code : Z;
  sim_container_code : Z;
  sim_container_files : list pystr;
  sim_container_stdout : pystr;
  sim_gc_code : Z;
  sim_log : list event
}.

Definition sim_update (w : sim) (paths : gset pystr) (ev : event) : sim :=
  {| sim_cwd := sim_cwd w; sim_uid := sim_uid w; sim_environ := sim_environ w;
     sim_paths := paths; sim_executables := sim_executables w;
     sim_config := sim_config w; sim_pull_code := sim_pull_code w;
     sim_container_code := sim_container_code w;
     sim_container_files := sim_container_files w;
     sim_container_stdout := sim_container_stdout w;
     sim_gc_code := sim_gc_code w;
     sim_log := sim_log w ++ [ev] |}.

Definition sim_record (ev : event) (w : sim) : sim := sim_update w (sim_paths w) ev.

(** The stream-capturing helper of the simulation: the container's
    standard output goes to the [_stdout] binding when it is not
    echoed. *)
Definition sim_capture (w : sim) (outs : gmap pystr dict) (print_stdout : bool)
    : gmap pystr dict :=
  if print_stdout then outs
  else match outs !! STDOUT with
       | Some slot =>
           <[STDOUT := <[SCRIPT_DATA := default [] (slot !! SCRIPT_DATA)
                                         ++ sim_container_stdout w]> slot]> outs
       | None => outs
       end.

#[export] Instance sim_host : Host sim := {|
  os_getcwd := sim_cwd;
  os_getuid := sim_uid;
  os_environ := sim_environ;
  os_path_exists w path := bool_decide (path ∈ sim_paths w);
  os_path_isfile w path := bool_decide (path ∈ sim_paths w);
  os_access_X_OK w path := bool_decide (path ∈ sim_executables w);
  os_mkdir path w :=
    if bool_decide (path ∈ sim_paths w) then (Raise (OSError path), w)
    else (Ok tt, sim_update w ({[path]} ∪ sim_paths w) (MadeDir path));
  write_file path data w :=
    (Ok tt, sim_update w ({[path]} ∪ sim_paths w) (Wrote path data));
  module_dir := str "/opt/worker/plugins/docker";
  print line w := sim_record (Printed line) w;
  popen_communicate args w :=
    (Ok (sim_pull_code w, [], []), sim_record (Communicated args) w);
  popen args env w := (Ok (length (sim_log w)), sim_record (Started args env) w);
  wait pid w := (sim_gc_code w, sim_record (Waited pid) w);
  config_has_option w section key :=
    bool_decide (section = str "docker" ∧ is_Some (sim_config w !! key));
  config_get w section key := default [] (sim_config w !! key);
  run_process command outs print_stdout print_stderr w :=
    (Ok (sim_container_code w, sim_capture w outs print_stdout),
     sim_update w (list_to_set (sim_container_files w) ∪ sim_paths w)
       (RanContainer command print_stdout print_stderr))
|}.

(** A worker whose container writes [/tmp/job1/out.csv] and exits with
    the given status. *)
Definition sim_worker (container_code : Z) (container_files : list pystr) : sim :=
  {| sim_cwd := str "/home/worker"; sim_uid := 1000;
     sim_environ := {[ str "PATH" := str "/usr/bin" ]};
     sim_paths := {[ str "/tmp/job1"; str "/opt/worker/plugins/docker/docker-gc" ]};
     sim_executables := {[ str "/opt/worker/plugins/docker/docker-gc" ]};
     sim_config := ∅;
     sim_pull_code := 0;
     sim_container_code := container_code;
     sim_container_files := container_files;
     sim_container_stdout := str "done";
     sim_gc_code := 0;
     sim_log := [] |}.

Definition job_task : task_spec :=
  {| docker_image := Some (str "busybox"); pull_image := None;
     entrypoint := None; docker_run_args := None;
     container_args := Some [str "$input{foo}"; str "$input{_tempdir}/out.csv"] |}.

Definition job_outputs : items :=
  [(str "result", {[ str "target" := FILEPATH; str "path" := str "out.csv" ]});
   (STDOUT, ∅)].

Definition job_slots : gmap pystr dict := {[ str "result" := ∅; STDOUT := ∅ ]}.

(** ** Running and collecting *)

Section run_properties.
Context {W : Type} `{Host W}.

(** C2: when the container started by [run] exits with a status other
    than 0, [run] raises the exception whose message is "Error: docker
    run returned code ", the decimal numeral of that status and a full
    stop. The message carries the status: the numeral in it reads back
    as the status, and no other status gives the same message. The
    state [run] leaves is the one the container run left: the world and
    the output bindings are as [run_process] returned them, so no
    scratch directory was made, no reclaimer started and no filepath
    binding written. *)
Theorem failed_run_raises :
  ∀ (task : task_spec) (inputs : gmap pystr dict) (task_inputs task_outputs : items)
    (tempdir : option pystr) (st : state W)
    (command : list pystr) (print_stdout print_stderr : bool) (returncode : Z),
    let prepared := run_prepare task inputs task_inputs task_outputs tempdir st in
    let ran := container_run command print_stdout print_stderr (snd prepared) in
    let message (code : Z) : pystr :=
      str "Error: docker run returned code " ++ str_of_Z code ++ str "." in
    fst prepared = Ok (command, print_stdout, print_stderr) →
    fst ran = Ok returncode →
    returncode ≠ 0%Z →
    run task inputs task_inputs task_outputs tempdir st
      = (Raise (Exception (message returncode)), snd ran)
    ∧ option_map Z.of_int
        (NilZero.int_of_string (string_of_list_ascii (str_of_Z returncode)))
      = Some returncode
    ∧ (∀ other : Z, message other = message returncode → other = returncode)
    ∧ ∃ (outs : gmap pystr dict) (w : W),
        run_process command (outputs (snd prepared)) print_stdout print_stderr
          (world (snd prepared)) = (Ok (returncode, outs), w)
        ∧ snd ran = {| world := w; outputs := outs |}.
Proof.
  intros task inputs task_inputs task_outputs tempdir st command
    print_stdout print_stderr returncode prepared ran message Hprepare Hran Hcode.
  split; [|split; [|split]].
  - unfold run, mbind. fold prepared.
    destruct prepared as [r st1]. simpl in Hprepare. subst r.
    simpl in ran. fold ran. destruct ran as [r st2]. simpl in Hran. subst r.
    by rewrite bool_decide_eq_true_2.
  - rewrite str_of_Z_read. cbn [option_map]. by rewrite DecimalZ.of_to.
  - intros other Heq. unfold message in Heq.
    apply app_inv_head, app_inv_tail in Heq. by apply str_of_Z_inj.
  - subst ran. unfold container_run in *.
    destruct (run_process command (outputs (snd prepared)) print_stdout print_stderr
                (world (snd prepared))) as [[[rc outs]|e] w]; [|done].
    simpl in Hran. injection Hran as ->. by exists outs, w.
Qed.

Lemma replace_first_prefix (old new suffix : pystr) :
  replace_first old new (old ++ suffix) = new ++ suffix.
Proof.
  destruct (old ++ suffix) as [|c s] eqn:Heq; simpl.
  - destruct old; [|done]. simpl in Heq. subst. done.
  - rewrite <- Heq, startswith_app. by rewrite drop_app_length.
Qed.

(** A filepath output the validator accepts is rooted at ["/data"]. *)
Lemma accepted_rooted (name : pystr) (task_output : dict) :
  is_filepath task_output = true →
  validate_task_outputs [(name, task_output)] = Ok tt →
  ∃ suffix,
    (if negb (startswith (str "/") (effective_path name task_output))
     then DATA_SLASH ++ effective_path name task_output
     else effective_path name task_output) = DATA ++ suffix
    ∧ str "/" `prefix_of` suffix.
Proof.
  intros Hfp Hvalid. rewrite validate_cons, Hfp in Hvalid.
  destruct (startswith (str "/") (effective_path name task_output)) eqn:Habs;
    cbn [negb andb] in *.
  - destruct (startswith DATA_SLASH (effective_path name task_output)) eqn:Hdata;
      cbn [negb] in Hvalid; [|done].
    apply startswith_prefix in Hdata as [rest Hrest].
    exists ("/"%char :: rest). split; [by rewrite Hrest | by exists rest].
  - exists ("/"%char :: effective_path name task_output).
    split; [done | by eexists].
Qed.

Lemma mbind_assoc {A B C} (m : M W A) (f : A → M W B) (g : B → M W C) (st : state W) :
  mbind (mbind m f) g st = mbind m (λ a, mbind (f a) g) st.
Proof. unfold mbind. by destruct (m st) as [[a|e] st']. Qed.

Lemma mbind_ext {A B} (m : M W A) (f g : A → M W B) (st : state W) :
  (∀ a st', f a st' = g a st') → mbind m f st = mbind m g st.
Proof. intros Hfg. unfold mbind. by destruct (m st) as [[a|e] st']. Qed.

Lemma extract_outputs_app (tempdir : pystr) (before after : items) (st : state W) :
  extract_outputs tempdir (before ++ after) st
  = (let! _ := extract_outputs tempdir before in extract_outputs tempdir after) st.
Proof.
  revert st; induction before as [|[name task_output] before IH]; intros st.
  - done.
  - cbn [app extract_outputs]. rewrite mbind_assoc.
    apply mbind_ext. intros _ st'. apply IH.
Qed.

(** C5: for a filepath output that passed validation and has a binding
    among the outputs, the extraction takes the effective path (the
    [path] of the descriptor, or the output id), puts ["/data/"] before
    it unless it is absolute, which makes it ["/data"] followed by a
    suffix, and rewrites this prefix to the temporary directory; when
    nothing exists at the host path so obtained it raises "Output
    filepath ... does not exist.", and otherwise it stores the host path
    as the [script_data] of the output's binding and changes nothing
    else. Each output of the task is handled so, in order, once those
    before it have been. *)
Theorem extract_filepath_output :
  ∀ (tempdir name : pystr) (task_output slot : dict) (st : state W),
    is_filepath task_output = true →
    validate_task_outputs [(name, task_output)] = Ok tt →
    outputs st !! name = Some slot →
    ∃ suffix : pystr,
      (if startswith (str "/") (effective_path name task_output)
       then effective_path name task_output
       else DATA_SLASH ++ effective_path name task_output) = DATA ++ suffix
      ∧ host_path tempdir name task_output = tempdir ++ suffix
      ∧ extract_output tempdir name task_output st
        = (if os_path_exists (world st) (tempdir ++ suffix)
           then (Ok tt, {| world := world st;
                           outputs := <[name := <[SCRIPT_DATA := tempdir ++ suffix]> slot]>
                                        (outputs st) |})
           else (Raise (missing_output_error (tempdir ++ suffix)), st))
      ∧ ∀ before after : items,
          extract_outputs tempdir (before ++ (name, task_output) :: after) st
          = (let! _ := extract_outputs tempdir before in
             let! _ := extract_output tempdir name task_output in
             extract_outputs tempdir after) st.
Proof.
  intros tempdir name task_output slot st Hfp Hvalid Hslot.
  destruct (accepted_rooted name task_output Hfp Hvalid) as (suffix & Hrooted & _).
  assert (Hhost : host_path tempdir name task_output = tempdir ++ suffix).
  { unfold host_path. rewrite Hrooted. apply replace_first_prefix. }
  exists suffix. split; [|split; [done|split]].
  - rewrite <- Hrooted. by destruct (startswith _ _).
  - unfold extract_output. rewrite Hfp, Hhost. unfold mbind, ask.
    destruct (os_path_exists (world st) (tempdir ++ suffix)); simpl; [|done].
    unfold set_script_data. by rewrite Hslot.
  - intros before after. by rewrite extract_outputs_app.
Qed.

(** [_read_from_config] reads the world and leaves the state alone. *)
Lemma read_from_config_eq (key : pystr) (default : pyval) (st : state W) :
  _read_from_config key default st
  = (Ok (if config_has_option (world st) (str "docker") key
         then PyStr (config_get (world st) (str "docker") key)
         else default), st).
Proof.
  unfold _read_from_config, mbind, ask, ret.
  by destruct (config_has_option (world st) (str "docker") key).
Qed.

(** The grace period handed to the reclaimer: the configured
    [cache_timeout], 3600 by default. *)
Definition configured_timeout (w : W) : pystr :=
  if config_has_option w (str "docker") (str "cache_timeout")
  then config_get w (str "docker") (str "cache_timeout")
  else str "3600".

(** The configured exclusion list: the entries of [exclude_images],
    separated by commas, that are not blank. *)
Definition configured_exclusions (w : W) : list pystr :=
  nonblank (split ","%char
              (if config_has_option w (str "docker") (str "exclude_images")
               then config_get w (str "docker") (str "exclude_images")
               else [])).


Lemma gc_environment_eq (tempdir : pystr) (st : state W) :
  gc_environment tempdir st =
    let w := world st in
    let env : gmap pystr pystr :=
      <[str "GRACE_PERIOD_SECONDS" := configured_timeout w]>
        (<[str "PID_DIR" := tempdir]>
           (<[str "STATE_DIR" := tempdir]>
              (<[str "FORCE_CONTAINER_REMOVAL" := str "1"]> (os_environ w)))) in
    let exclude_file := PosixPath.join tempdir [str ".docker-gc-exclude"] in
    match configured_exclusions w with
    | [] => (Ok env, st)
    | (_ :: _) as excluded =>
        match write_file exclude_file (Py.join [NEWLINE] excluded ++ [NEWLINE]) w with
        | (Ok _, w') =>
            (Ok (<[str "EXCLUDE_FROM_GC" := exclude_file]> env),
             {| world := w'; outputs := outputs st |})
        | (Raise e, w') => (Raise e, {| world := w'; outputs := outputs st |})
        end
    end.
Proof.
  unfold gc_environment, configured_exclusions, configured_timeout.
  cbv beta iota zeta delta [mbind ask ret raise try of_result _read_from_config].
  destruct (config_has_option (world st) (str "docker") (str "cache_timeout"));
    destruct (config_has_option (world st) (str "docker") (str "exclude_images"));
    cbv beta iota;
    match goal with |- context [nonblank ?l] => destruct (nonblank l) end;
    try reflexivity;
    match goal with |- context [write_file ?a ?b ?c] =>
      destruct (write_file a b c) as [[[]|e] w'] end;
    reflexivity.
Qed.
(** C9: when its script is there and executable, [_docker_gc] ends by
    starting it with an environment that is the worker's own in which
    [FORCE_CONTAINER_REMOVAL] is ["1"], [STATE_DIR] and [PID_DIR] are
    the scratch directory and [GRACE_PERIOD_SECONDS] is the configured
    timeout (["3600"] by default). With a configured exclusion list
    that is not empty it first writes the list, one image per line,
    to the file [.docker-gc-exclude] of the scratch directory, and
    sets [EXCLUDE_FROM_GC] to the path of that file; with an empty list
    it writes nothing and sets no [EXCLUDE_FROM_GC] (the variable keeps
    the value it has in the worker's environment, if any). *)
Theorem reclaimer_environment :
  ∀ (tempdir : pystr) (st : state W),
    let w := world st in
    let script := PosixPath.join module_dir [str "docker-gc"] in
    let exclude_file := PosixPath.join tempdir [str ".docker-gc-exclude"] in
    let excluded := configured_exclusions w in
    let env : gmap pystr pystr :=
      <[str "GRACE_PERIOD_SECONDS" := configured_timeout w]>
        (<[str "PID_DIR" := tempdir]>
           (<[str "STATE_DIR" := tempdir]>
              (<[str "FORCE_CONTAINER_REMOVAL" := str "1"]> (os_environ w)))) in
    os_path_isfile w script = true →
    os_access_X_OK w script = true →
    (env !! str "FORCE_CONTAINER_REMOVAL" = Some (str "1")
     ∧ env !! str "STATE_DIR" = Some tempdir
     ∧ env !! str "PID_DIR" = Some tempdir
     ∧ env !! str "GRACE_PERIOD_SECONDS" = Some (configured_timeout w)
     ∧ env !! str "EXCLUDE_FROM_GC" = os_environ w !! str "EXCLUDE_FROM_GC")
    ∧ (excluded = [] → _docker_gc tempdir st = try (popen [script] env) st)
    ∧ (excluded ≠ [] →
       ∀ (r : result unit) (w' : W),
         write_file exclude_file (Py.join [NEWLINE] excluded ++ [NEWLINE]) w = (r, w') →
         let st' := {| world := w'; outputs := outputs st |} in
         match r with
         | Ok _ =>
             _docker_gc tempdir st
             = try (popen [script] (<[str "EXCLUDE_FROM_GC" := exclude_file]> env)) st'
             ∧ <[str "EXCLUDE_FROM_GC" := exclude_file]> env !! str "EXCLUDE_FROM_GC"
               = Some exclude_file
         | Raise e => _docker_gc tempdir st = (Raise e, st')
         end).
Proof.
  intros tempdir st w script exclude_file excluded env Hfile Hexec.
  assert (Hgc : _docker_gc tempdir st
                = (let! env := gc_environment tempdir in try (popen [script] env)) st).
  { unfold _docker_gc. fold script.
    cbv beta iota zeta delta [mbind ask raise]. fold w. rewrite Hfile.
    cbv beta iota delta [negb]. fold w. by rewrite Hexec. }
  split; [|split].
  - subst env. repeat split.
    + by rewrite !lookup_insert_ne, lookup_insert_eq by done.
    + by rewrite !lookup_insert_ne, lookup_insert_eq by done.
    + by rewrite !lookup_insert_ne, lookup_insert_eq by done.
    + by rewrite lookup_insert_eq.
    + by rewrite !lookup_insert_ne by done.
  - intros Hnone. rewrite Hgc. unfold mbind. rewrite gc_environment_eq.
    cbv zeta. fold w. fold excluded. by rewrite Hnone.
  - intros Hsome r w' Hwrite st'. rewrite Hgc. unfold mbind.
    rewrite gc_environment_eq. cbv zeta. fold w. fold excluded. fold exclude_file.
    destruct excluded as [|x l] eqn:Hexc; [done|].
    rewrite Hwrite. destruct r as [[]|e]; [|done].
    split; [done|]. by rewrite lookup_insert_eq.
Qed.
End run_properties.

(** *** The executor on the simulated host *)

(** The [script_data] of the binding of an output. *)
Definition binding_data (outs : gmap pystr dict) (name : pystr) : option pystr :=
  match outs !! name with
  | Some slot => slot !! SCRIPT_DATA
  | None => None
  end.

Definition run_job (w : sim) : result unit * state sim :=
  run job_task inputs_foo foo_filepath job_outputs (Some (str "/tmp/job1"))
    {| world := w; outputs := job_slots |}.

(** Scenario C of the specification and its failing variant, and
    scenario E. *)
Example run_scenarios :
  fst (run_job (sim_worker 0 [str "/tmp/job1/out.csv"])) = Ok tt
  ∧ binding_data (outputs (snd (run_job (sim_worker 0 [str "/tmp/job1/out.csv"]))))
      (str "result") = Some (str "/tmp/job1/out.csv")
  ∧ binding_data (outputs (snd (run_job (sim_worker 0 [str "/tmp/job1/out.csv"]))))
      STDOUT = Some (str "done")
  ∧ fst (run_job (sim_worker 0 []))
    = Raise (missing_output_error (str "/tmp/job1/out.csv"))
  ∧ fst (run_job (sim_worker 2 []))
    = Raise (Exception (str "Error: docker run returned code 2.")).
Proof. repeat apply conj; vm_compute; reflexivity. Qed.

Lemma pair_from_fst {A B} (p : A * B) (a : A) : fst p = a → p = (a, snd p).
Proof. destruct p. simpl. by intros ->. Qed.

Definition job_command : list pystr :=
  [str "docker"; str "run"; str "-u"; str "1000"; str "-v"; str "/tmp/job1:/data";
   str "busybox"; str "/data/in.txt"; str "/data/out.csv"].

(** Scenario E of the specification: the container exits with status
    2. The last thing [run] did to the outside is to run the container:
    the scratch directory is not there and the filepath output has no
    [script_data]. *)
Lemma failed_run_raises_witness :
  let st := {| world := sim_worker 2 []; outputs := job_slots |} in
  let prepared := run_prepare job_task inputs_foo foo_filepath job_outputs
                    (Some (str "/tmp/job1")) st in
  (run job_task inputs_foo foo_filepath job_outputs (Some (str "/tmp/job1")) st
   = (Raise (Exception (str "Error: docker run returned code 2.")),
      snd (container_run job_command false true (snd prepared))))
  ∧ last (sim_log (world (snd (run_job (sim_worker 2 [])))))
    = Some (RanContainer job_command false true)
  ∧ bool_decide (str "/tmp/job1/docker_gc_scratch"
                 ∈ sim_paths (world (snd (run_job (sim_worker 2 []))))) = false
  ∧ binding_data (outputs (snd (run_job (sim_worker 2 [])))) (str "result") = None.
Proof.
  split; [|repeat apply conj; vm_compute; reflexivity].
  apply (failed_run_raises job_task inputs_foo foo_filepath job_outputs
           (Some (str "/tmp/job1")) {| world := sim_worker 2 []; outputs := job_slots |}
           job_command false true 2).
  - vm_compute; reflexivity.
  - vm_compute; reflexivity.
  - discriminate.
Defined.

(** The state in which [run] extracts the outputs of the job: the
    container has written [/tmp/job1/out.csv]. *)
Definition job_collected : state sim :=
  snd (container_run job_command false true
         {| world := sim_worker 0 [str "/tmp/job1/out.csv"]; outputs := job_slots |}).

Definition result_output : dict :=
  {[ str "target" := FILEPATH; str "path" := str "out.csv" ]}.

(** Scenario C of the specification, at the extraction. *)
Lemma extract_filepath_output_witness :
  host_path (str "/tmp/job1") (str "result") result_output = str "/tmp/job1/out.csv"
  ∧ fst (extract_output (str "/tmp/job1") (str "result") result_output job_collected)
    = Ok tt
  ∧ binding_data
      (outputs (snd (extract_output (str "/tmp/job1") (str "result") result_output
                       job_collected))) (str "result")
    = Some (str "/tmp/job1/out.csv").
Proof.
  destruct (extract_filepath_output (str "/tmp/job1") (str "result") result_output ∅
              job_collected)
    as (suffix & Hrooted & Hhost & Hextract & _).
  - vm_compute; reflexivity.
  - vm_compute; reflexivity.
  - vm_compute; reflexivity.
  - assert (Hsuffix : suffix = str "/out.csv").
    { vm_compute in Hrooted. by injection Hrooted as <-. }
    subst suffix.
    replace (os_path_exists (world job_collected) (str "/tmp/job1" ++ str "/out.csv"))
      with true in Hextract by (vm_compute; reflexivity).
    rewrite Hhost, Hextract. repeat apply conj; [reflexivity | reflexivity |].
    cbn [snd outputs]. unfold binding_data.
    rewrite lookup_insert_eq. apply lookup_insert_eq.
Defined.

(** A worker configured to keep two images and to reclaim after a
    minute, whose own environment names an exclusion file. *)
Definition gc_world : sim :=
  {| sim_cwd := str "/home/worker"; sim_uid := 1000;
     sim_environ := {[ str "PATH" := str "/usr/bin" ]};
     sim_paths := {[ str "/tmp/job1/docker_gc_scratch";
                     str "/opt/worker/plugins/docker/docker-gc" ]};
     sim_executables := {[ str "/opt/worker/plugins/docker/docker-gc" ]};
     sim_config := {[ str "cache_timeout" := str "60";
                      str "exclude_images" := str "busybox:1.36, ,alpine" ]};
     sim_pull_code := 0; sim_container_code := 0; sim_container_files := [];
     sim_container_stdout := []; sim_gc_code := 0; sim_log := [] |}.

(** The variable of the environment the last process was started with. *)
Definition started_with (w : sim) (key : pystr) : option pystr :=
  match last (sim_log w) with
  | Some (Started _ env) => env !! key
  | _ => None
  end.

Lemma reclaimer_environment_witness :
  let scratch := str "/tmp/job1/docker_gc_scratch" in
  let st := {| world := gc_world; outputs := ∅ |} in
  let exclude_file := str "/tmp/job1/docker_gc_scratch/.docker-gc-exclude" in
  let after := world (snd (_docker_gc scratch st)) in
  configured_exclusions gc_world = [str "busybox:1.36"; str "alpine"]
  ∧ (∃ env st', _docker_gc scratch st
                = try (popen [str "/opt/worker/plugins/docker/docker-gc"] env) st'
                ∧ env !! str "EXCLUDE_FROM_GC" = Some exclude_file)
  ∧ sim_log after !! 0 = Some (Wrote exclude_file (str "busybox:1.36
alpine
"))
  ∧ started_with after (str "FORCE_CONTAINER_REMOVAL") = Some (str "1")
  ∧ started_with after (str "STATE_DIR") = Some scratch
  ∧ started_with after (str "PID_DIR") = Some scratch
  ∧ started_with after (str "GRACE_PERIOD_SECONDS") = Some (str "60")
  ∧ started_with after (str "EXCLUDE_FROM_GC") = Some exclude_file
  ∧ started_with after (str "PATH") = Some (str "/usr/bin").
Proof.
  cbv zeta.
  split; [vm_compute; reflexivity|].
  split; [|repeat apply conj; try (vm_compute; reflexivity)].
  destruct (reclaimer_environment (str "/tmp/job1/docker_gc_scratch")
              {| world := gc_world; outputs := ∅ |}) as (_ & _ & Hsome).
  - vm_compute; reflexivity.
  - vm_compute; reflexivity.
  - assert (Hne : configured_exclusions gc_world ≠ []) by (vm_compute; discriminate).
    match type of Hsome with
    | _ → ∀ r w', ?wf = _ → _ =>
        assert (Hwrite : wf = (Ok tt, snd wf)) by (apply pair_from_fst; vm_compute; reflexivity)
    end.
    specialize (Hsome Hne _ _ Hwrite).
    destruct Hsome as [Hgc Henv]. eexists _, _. split; [exact Hgc|].
    rewrite Henv. f_equal.
Defined.

(** ** Paths in normal form *)

(** A component of a normalised path: not empty, without slash, and
    neither ["."] nor [".."]. *)
Definition normal_comp (c : pystr) : Prop :=
  c ≠ [] ∧ PosixPath.sep ∉ c ∧ c ≠ str "." ∧ c ≠ str "..".

Lemma split_nonempty (c : ascii) (s : pystr) : split c s ≠ [].
Proof. destruct s as [|x s]; simpl; [done|]. case_decide; [done|]. by destruct (split c s). Qed.

Lemma split_no_sep (c : ascii) (s : pystr) : c ∉ s → split c s = [s].
Proof.
  induction s as [|x s IH]; simpl; [done|]. intros Hn.
  apply not_elem_of_cons in Hn as [Hx Hs]. rewrite decide_False by done.
  by rewrite IH.
Qed.

Lemma split_app_sep (c : ascii) (a b : pystr) :
  c ∉ a → split c (a ++ c :: b) = a :: split c b.
Proof.
  induction a as [|x a IH]; simpl; intros Hn.
  - by rewrite decide_True.
  - apply not_elem_of_cons in Hn as [Hx Ha]. rewrite decide_False by done.
    by rewrite IH.
Qed.

Lemma join_cons (sp x : pystr) (l : list pystr) :
  l ≠ [] → Py.join sp (x :: l) = x ++ sp ++ Py.join sp l.
Proof. by destruct l. Qed.

(** Splitting at the slashes undoes joining with slashes. *)
Lemma split_join (c : ascii) (comps : list pystr) :
  comps ≠ [] → Forall (λ x, c ∉ x) comps → split c (Py.join [c] comps) = comps.
Proof.
  induction comps as [|x comps IH]; [done|]. intros _ Hall.
  apply Forall_cons in Hall as [Hx Hall].
  destruct comps as [|y comps].
  - simpl. by apply split_no_sep.
  - rewrite join_cons by done. cbn [app]. rewrite split_app_sep by done.
    f_equal. by apply IH.
Qed.

Lemma join_app (sp : pystr) (l1 l2 : list pystr) :
  l1 ≠ [] → l2 ≠ [] →
  Py.join sp (l1 ++ l2) = Py.join sp l1 ++ sp ++ Py.join sp l2.
Proof.
  intros Hl1 Hl2. induction l1 as [|x l1 IH]; [done|].
  destruct l1 as [|y l1].
  - simpl. by destruct l2.
  - cbn [app] in *. rewrite (join_cons sp x (y :: l1 ++ l2)) by done.
    rewrite IH by done. rewrite (join_cons sp x (y :: l1)) by done.
    by rewrite <- !app_assoc.
Qed.

Lemma normpath_step_normal (n : nat) (acc : list pystr) (c : pystr) :
  normal_comp c → PosixPath.normpath_step n acc c = acc ++ [c].
Proof.
  intros (Hne & _ & Hdot & Hdots). unfold PosixPath.normpath_step.
  rewrite bool_decide_eq_false_2 by naive_solver.
  by rewrite (bool_decide_eq_true_2 (c ≠ str "..")).
Qed.

Lemma normpath_steps_normal (n : nat) (acc comps : list pystr) :
  Forall normal_comp comps →
  foldl (PosixPath.normpath_step n) acc comps = acc ++ comps.
Proof.
  intros Hall. revert acc. induction Hall as [|c comps Hc Hall IH]; intros acc; simpl.
  - by rewrite app_nil_r.
  - rewrite normpath_step_normal by done. rewrite IH. by rewrite <- app_assoc.
Qed.

Lemma normal_no_sep (comps : list pystr) :
  Forall normal_comp comps → Forall (λ x, PosixPath.sep ∉ x) comps.
Proof. intros Hall. eapply Forall_impl; [exact Hall|]. by intros c (_ & ? & _). Qed.

Lemma join_head (comps : list pystr) (c : pystr) :
  normal_comp c → ∃ x s, Py.join [PosixPath.sep] (c :: comps) = x :: s ∧ x ≠ PosixPath.sep.
Proof.
  intros (Hne & Hsep & _). destruct c as [|x c]; [done|].
  apply not_elem_of_cons in Hsep as [Hx _].
  destruct comps; simpl; eauto.
Qed.

Lemma filter_nonempty_normal (comps : list pystr) :
  Forall normal_comp comps → filter (λ x : pystr, x ≠ []) comps = comps.
Proof.
  induction 1 as [|c comps (Hne & _) Hall IH]; [done|].
  rewrite filter_cons_True by done. by rewrite IH.
Qed.

Lemma commonprefix_app (l1 l2 : list pystr) :
  PosixPath.commonprefix l1 (l1 ++ l2) = l1.
Proof. induction l1 as [|a l1 IH]; simpl; [by destruct l2|]. by rewrite decide_True, IH. Qed.

Lemma join_last (comps : list pystr) :
  comps ≠ [] → Forall normal_comp comps →
  ∃ s y, Py.join [PosixPath.sep] comps = s ++ [y] ∧ y ≠ PosixPath.sep.
Proof.
  intros Hne Hall. induction Hall as [|c comps Hc Hall IH]; [done|].
  destruct comps as [|c' comps].
  - destruct Hc as (Hcne & Hsep & _). simpl.
    destruct c as [|y c _] using rev_ind; [done|].
    exists c, y. split; [done|]. intros ->. apply Hsep.
    apply elem_of_app. right. apply list_elem_of_here.
  - destruct IH as (s & y & Hjoin & Hy); [done|].
    rewrite join_cons by done. rewrite Hjoin.
    exists (c ++ [PosixPath.sep] ++ s), y. by rewrite <- !app_assoc.
Qed.

(** Joining components in normal form with [os.path.join] puts one
    slash between them. *)
Lemma posix_join_normal (a : pystr) (p : list pystr) :
  Forall normal_comp (a :: p) →
  PosixPath.join a p = Py.join [PosixPath.sep] (a :: p).
Proof.
  intros Hall. unfold PosixPath.join.
  assert (Hgen : ∀ (done_ : list pystr) (rest : list pystr),
            done_ ≠ [] → Forall normal_comp done_ → Forall normal_comp rest →
            foldl PosixPath.join2 (Py.join [PosixPath.sep] done_) rest
            = Py.join [PosixPath.sep] (done_ ++ rest)).
  { intros done_ rest. revert done_.
    induction rest as [|b rest IH]; intros done_ Hne Hdone Hrest.
    - by rewrite app_nil_r.
    - apply Forall_cons in Hrest as [Hb Hrest]. cbn [foldl].
      assert (Hstep : PosixPath.join2 (Py.join [PosixPath.sep] done_) b
                      = Py.join [PosixPath.sep] (done_ ++ [b])).
      { destruct Hb as (Hbne & Hbsep & _).
        destruct (join_last done_ Hne Hdone) as (s & y & Hjoin & Hy).
        unfold PosixPath.join2.
        assert (startswith [PosixPath.sep] b = false) as ->.
        { destruct b as [|x b]; [done|]. apply not_elem_of_cons in Hbsep as [Hx _].
          simpl. by rewrite decide_False. }
        rewrite Hjoin. rewrite bool_decide_eq_false_2 by (by destruct s).
        assert (endswith [PosixPath.sep] (s ++ [y]) = false) as ->.
        { unfold endswith. rewrite rev_app_distr. simpl. by rewrite decide_False. }
        cbn [orb]. rewrite <- Hjoin. rewrite join_app by done. done. }
      rewrite Hstep. rewrite IH; [by rewrite <- app_assoc | by destruct done_ | | done].
      apply Forall_app. split; [done | by constructor]. }
  apply Forall_cons in Hall as [Ha Hp].
  apply (Hgen [a] p); [done | by constructor | done].
Qed.

(** ** Paths and their components *)

(** The number of leading slashes [os.path.normpath] keeps. *)
Definition initial_slashes (path : pystr) : nat :=
  if startswith [PosixPath.sep] path
  then if startswith (str "//") path && negb (startswith (str "///") path)
       then 2 else 1
  else 0.

(** The components [os.path.normpath] is left with. *)
Definition normal_components (path : pystr) : list pystr :=
  foldl (PosixPath.normpath_step (initial_slashes path)) [] (split PosixPath.sep path).

(** What [os.path.abspath] normalises. *)
Definition absolutized (cwd path : pystr) : pystr :=
  if PosixPath.isabs path then path else PosixPath.join cwd [path].

(** [start_list] and [path_list] of [os.path.relpath]: the components
    of the absolute, normalised path. *)
Definition components (cwd path : pystr) : list pystr :=
  filter (λ x : pystr, x ≠ []) (split PosixPath.sep (PosixPath.abspath cwd path)).

(** A relative location written in normal form: its components joined
    by single slashes, or ["."] when there is none. *)
Definition relative (below : list pystr) : pystr :=
  match below with
  | [] => str "."
  | _ :: _ => Py.join [PosixPath.sep] below
  end.

Lemma split_app (c : ascii) (a b : pystr) :
  split c (a ++ c :: b) = split c a ++ split c b.
Proof.
  induction a as [|x a IH]; simpl.
  - by rewrite decide_True.
  - destruct (decide (x = c)) as [->|Hx]; [by rewrite IH|].
    rewrite IH. pose proof (split_nonempty c a) as Hne.
    by destruct (split c a).
Qed.

Lemma split_without (c : ascii) (s : pystr) : Forall (λ x, c ∉ x) (split c s).
Proof.
  induction s as [|x s IH]; simpl.
  - repeat constructor. apply not_elem_of_nil.
  - destruct (decide (x = c)) as [->|Hx].
    + constructor; [apply not_elem_of_nil | done].
    + pose proof (split_nonempty c s) as Hne.
      destruct (split c s) as [|h t]; [done|].
      apply Forall_cons in IH as [Hh Ht]. constructor; [|done].
      apply not_elem_of_cons. split; [done | done].
Qed.

Lemma Forall_removelast {A} (P : A → Prop) (l : list A) :
  Forall P l → Forall P (removelast l).
Proof.
  induction 1 as [|x l Hx Hl IH]; [done|]. simpl.
  destruct l; [constructor | by constructor].
Qed.

(** The components [normpath] keeps for an absolute path are in normal
    form: [".."] is never kept. *)
Lemma normpath_step_keeps_normal (k : nat) (acc : list pystr) (c : pystr) :
  k ≠ 0 → PosixPath.sep ∉ c → Forall normal_comp acc →
  Forall normal_comp (PosixPath.normpath_step k acc c).
Proof.
  intros Hk Hsep Hacc. unfold PosixPath.normpath_step.
  case_bool_decide as Hdrop; [done|].
  destruct (decide (c = str "..")) as [->|Hdots].
  - rewrite (bool_decide_eq_false_2 (str ".." ≠ str "..")) by (intros Hn; by apply Hn).
    rewrite (bool_decide_eq_false_2 (k = 0)) by done.
    cbn [orb andb].
    destruct (decide (last acc = Some (str ".."))) as [Hlast|Hlast].
    + exfalso. apply last_Some in Hlast as [l' ->].
      apply (Forall_app normal_comp l' [str ".."]) in Hacc as [_ Hl].
      apply (Forall_singleton normal_comp) in Hl.
      unfold normal_comp in Hl. naive_solver.
    + rewrite (bool_decide_eq_false_2 (last acc = Some (str ".."))) by done.
      rewrite andb_false_r. by apply Forall_removelast.
  - rewrite (bool_decide_eq_true_2 (c ≠ str "..")) by done. cbn [orb].
    apply Forall_app. split; [done|]. apply Forall_singleton.
    unfold normal_comp. naive_solver.
Qed.

Lemma normpath_steps_keep_normal (k : nat) (acc : list pystr) (pieces : list pystr) :
  k ≠ 0 → Forall (λ x, PosixPath.sep ∉ x) pieces → Forall normal_comp acc →
  Forall normal_comp (foldl (PosixPath.normpath_step k) acc pieces).
Proof.
  intros Hk Hp. revert acc. induction Hp as [|c pieces Hc Hp IH]; intros acc Hacc; [done|].
  cbn [foldl]. apply IH. by apply normpath_step_keeps_normal.
Qed.

Lemma initial_slashes_absolute (path : pystr) :
  PosixPath.isabs path = true → initial_slashes path ≠ 0.
Proof.
  unfold PosixPath.isabs, initial_slashes. intros ->.
  by destruct (startswith (str "//") path && negb (startswith (str "///") path)).
Qed.

Lemma normal_components_normal (path : pystr) :
  PosixPath.isabs path = true → Forall normal_comp (normal_components path).
Proof.
  intros Habs. apply normpath_steps_keep_normal;
    [by apply initial_slashes_absolute | apply split_without | constructor].
Qed.

(** Splitting a normalised absolute path gives its components back. *)
Lemma components_of_normal (k : nat) (comps : list pystr) :
  Forall normal_comp comps →
  filter (λ x : pystr, x ≠ [])
    (split PosixPath.sep (replicate k PosixPath.sep ++ Py.join [PosixPath.sep] comps))
  = comps.
Proof.
  intros Hall. induction k as [|k IH].
  - cbn [replicate app]. destruct comps as [|c comps]; [done|].
    rewrite split_join by (done || by apply normal_no_sep).
    by apply filter_nonempty_normal.
  - cbn [replicate app].
    change (PosixPath.sep :: ?s) with ([] ++ PosixPath.sep :: s).
    rewrite split_app. cbn [split app].
    rewrite filter_cons_False by naive_solver. exact IH.
Qed.

Lemma normpath_of_absolute (path : pystr) :
  PosixPath.isabs path = true →
  PosixPath.normpath path
  = replicate (initial_slashes path) PosixPath.sep
    ++ Py.join [PosixPath.sep] (normal_components path).
Proof.
  intros Habs. pose proof (initial_slashes_absolute path Habs) as Hk.
  unfold PosixPath.normpath. fold (initial_slashes path). fold (normal_components path).
  rewrite bool_decide_eq_false_2 by (by destruct path).
  rewrite bool_decide_eq_false_2; [done|].
  by destruct (initial_slashes path).
Qed.

Lemma absolutized_absolute (cwd path : pystr) :
  PosixPath.isabs cwd = true → PosixPath.isabs (absolutized cwd path) = true.
Proof.
  intros Hcwd. unfold absolutized.
  destruct (PosixPath.isabs path) eqn:Habs; [done|].
  unfold PosixPath.join. cbn [foldl]. unfold PosixPath.join2.
  unfold PosixPath.isabs in Habs. rewrite Habs.
  destruct cwd as [|x cwd]; [done|].
  unfold PosixPath.isabs in *.
  by destruct (bool_decide (x :: cwd = []) || endswith [PosixPath.sep] (x :: cwd)).
Qed.

Lemma components_eq (cwd path : pystr) :
  PosixPath.isabs cwd = true →
  components cwd path = normal_components (absolutized cwd path).
Proof.
  intros Hcwd. unfold components, PosixPath.abspath. fold (absolutized cwd path).
  pose proof (absolutized_absolute cwd path Hcwd) as Habs.
  rewrite normpath_of_absolute by done.
  apply components_of_normal. by apply normal_components_normal.
Qed.

Lemma components_normal (cwd path : pystr) :
  PosixPath.isabs cwd = true → Forall normal_comp (components cwd path).
Proof.
  intros Hcwd. rewrite components_eq by done.
  apply normal_components_normal. by apply absolutized_absolute.
Qed.

(** *** Joining a relative location to a directory *)

(** [a] with the slash [os.path.join] puts after it. *)
Definition slashed (a : pystr) : pystr :=
  if bool_decide (a = []) || endswith [PosixPath.sep] a then a else a ++ [PosixPath.sep].

Lemma join2_relative (a b : pystr) :
  startswith [PosixPath.sep] b = false → PosixPath.join2 a b = slashed a ++ b.
Proof.
  intros Hb. unfold PosixPath.join2, slashed. rewrite Hb.
  destruct (bool_decide (a = []) || endswith [PosixPath.sep] a); [done|].
  by rewrite <- app_assoc.
Qed.

Lemma endswith_snoc (c : ascii) (s : pystr) (y : ascii) :
  endswith [c] (s ++ [y]) = bool_decide (c = y).
Proof.
  unfold endswith. rewrite rev_app_distr. simpl.
  destruct (decide (c = y)); [by rewrite bool_decide_eq_true_2 | by rewrite bool_decide_eq_false_2].
Qed.

Lemma slashed_slash (s : pystr) :
  slashed (s ++ [PosixPath.sep]) = s ++ [PosixPath.sep].
Proof.
  unfold slashed. rewrite endswith_snoc.
  rewrite (bool_decide_eq_true_2 (PosixPath.sep = PosixPath.sep)) by done.
  by rewrite orb_true_r.
Qed.

Lemma slashed_other (s : pystr) (y : ascii) :
  y ≠ PosixPath.sep → slashed (s ++ [y]) = (s ++ [y]) ++ [PosixPath.sep].
Proof.
  intros Hy. unfold slashed. rewrite endswith_snoc.
  rewrite (bool_decide_eq_false_2 (PosixPath.sep = y)) by done.
  rewrite (bool_decide_eq_false_2 (s ++ [y] = [])) by (by destruct s). done.
Qed.

Lemma slashed_cases (a : pystr) :
  (a = [] ∧ slashed a = [])
  ∨ (∃ s, a = s ++ [PosixPath.sep] ∧ slashed a = a)
  ∨ (∃ s y, a = s ++ [y] ∧ y ≠ PosixPath.sep ∧ slashed a = a ++ [PosixPath.sep]).
Proof.
  destruct a as [|y s _] using rev_ind; [by left|]. right.
  destruct (decide (y = PosixPath.sep)) as [->|Hy].
  - left. exists s. by rewrite slashed_slash.
  - right. exists s, y. by rewrite slashed_other.
Qed.

Lemma relative_head (below : list pystr) :
  Forall normal_comp below → ∃ x s, relative below = x :: s ∧ x ≠ PosixPath.sep.
Proof.
  intros Hall. destruct below as [|c below].
  - exists "."%char, []. split; [done | discriminate].
  - apply Forall_cons in Hall as [Hc _]. by apply join_head.
Qed.

Lemma relative_not_absolute (below : list pystr) :
  Forall normal_comp below → startswith [PosixPath.sep] (relative below) = false.
Proof.
  intros Hall. destruct (relative_head below Hall) as (x & s & -> & Hx).
  simpl. by rewrite decide_False.
Qed.

(** The components of a relative location in normal form, as
    [normpath] reads them. *)
Lemma normpath_steps_relative (k : nat) (acc below : list pystr) :
  Forall normal_comp below →
  foldl (PosixPath.normpath_step k) acc (split PosixPath.sep (relative below))
  = acc ++ below.
Proof.
  intros Hall. destruct below as [|c below].
  - by rewrite app_nil_r.
  - unfold relative. rewrite split_join by (done || by apply normal_no_sep).
    by apply normpath_steps_normal.
Qed.

Lemma normpath_steps_slashed (k : nat) (acc : list pystr) (a rel : pystr) :
  a ≠ [] →
  foldl (PosixPath.normpath_step k) acc (split PosixPath.sep (slashed a ++ rel))
  = foldl (PosixPath.normpath_step k)
      (foldl (PosixPath.normpath_step k) acc (split PosixPath.sep a))
      (split PosixPath.sep rel).
Proof.
  intros Ha.
  destruct (slashed_cases a) as [[-> _]|[(s & -> & ->)|(s & y & -> & Hy & ->)]]; [done| |].
  - rewrite <- app_assoc. cbn [app]. rewrite split_app, foldl_app.
    f_equal. rewrite <- (app_nil_r [PosixPath.sep]) at 1.
    cbn [app]. by rewrite split_app, foldl_app.
  - rewrite <- app_assoc. cbn [app]. by rewrite split_app, foldl_app.
Qed.

Lemma startswith_slashes (n : nat) (a : pystr) (x : ascii) (r : pystr) :
  x ≠ PosixPath.sep →
  startswith (replicate n PosixPath.sep) (a ++ x :: r)
  = startswith (replicate n PosixPath.sep) a.
Proof.
  intros Hx. revert a. induction n as [|n IH]; intros a; [done|].
  destruct a as [|y a]; cbn [replicate app startswith].
  - by rewrite decide_False.
  - destruct (decide (PosixPath.sep = y)); [apply IH | done].
Qed.

Lemma initial_slashes_app (a : pystr) (x : ascii) (r : pystr) :
  x ≠ PosixPath.sep → initial_slashes (a ++ x :: r) = initial_slashes a.
Proof.
  intros Hx. unfold initial_slashes.
  change [PosixPath.sep] with (replicate 1 PosixPath.sep).
  change (str "//") with (replicate 2 PosixPath.sep).
  change (str "///") with (replicate 3 PosixPath.sep).
  by rewrite !startswith_slashes.
Qed.

Lemma initial_slashes_slashed (a : pystr) (x : ascii) (r : pystr) :
  a ≠ [] → x ≠ PosixPath.sep →
  initial_slashes (slashed a ++ x :: r) = initial_slashes a.
Proof.
  intros Ha Hx.
  destruct (slashed_cases a) as [[-> _]|[(s & -> & ->)|(s & y & -> & Hy & ->)]]; [done| |].
  - by apply initial_slashes_app.
  - rewrite <- !app_assoc. cbn [app].
    rewrite (initial_slashes_app s y) by done.
    rewrite <- (initial_slashes_app s y []) by done. done.
Qed.

(** [os.path.join] is associative when what is joined is relative. *)
Lemma slashed_app (a b : pystr) :
  startswith [PosixPath.sep] b = false → slashed (slashed a ++ b) = slashed a ++ slashed b.
Proof.
  intros Hb. destruct (slashed_cases b) as [[-> ->]|[(s & -> & ->)|(s & y & -> & Hy & ->)]].
  - rewrite app_nil_r.
    destruct (slashed_cases a) as [[-> ->]|[(s & -> & ->)|(s & y & -> & Hy & ->)]];
      [done | apply slashed_slash | apply slashed_slash].
  - rewrite app_assoc. apply slashed_slash.
  - rewrite (app_assoc _ s [y]), slashed_other by done.
    by rewrite <- !app_assoc.
Qed.

Lemma slashed_relative (a b : pystr) :
  a ≠ [] ∨ b ≠ [] →
  startswith [PosixPath.sep] a = false → startswith [PosixPath.sep] b = false →
  startswith [PosixPath.sep] (slashed a ++ b) = false.
Proof.
  intros Hne Ha Hb.
  destruct (slashed_cases a) as [[-> ->]|[(s & -> & ->)|(s & y & -> & Hy & ->)]]; [done| |].
  - destruct s as [|z s]; [done|]. cbn [app startswith] in *.
    by destruct (decide (PosixPath.sep = z)).
  - destruct s as [|z s]; cbn [app startswith] in *.
    + by rewrite decide_False.
    + by destruct (decide (PosixPath.sep = z)).
Qed.

(** Making a path absolute and joining a relative location to it
    commute. *)
Lemma absolutized_join (cwd dir rel : pystr) :
  PosixPath.isabs cwd = true → rel ≠ [] → startswith [PosixPath.sep] rel = false →
  absolutized cwd (PosixPath.join dir [rel]) = slashed (absolutized cwd dir) ++ rel.
Proof.
  intros Hcwd Hne Hrel. unfold absolutized, PosixPath.join. cbn [foldl].
  rewrite (join2_relative dir rel) by done.
  unfold PosixPath.isabs in *.
  destruct (startswith [PosixPath.sep] dir) eqn:Hdir.
  - assert (startswith [PosixPath.sep] (slashed dir ++ rel) = true) as ->; [|done].
    destruct dir as [|x dir]; [done|].
    destruct (slashed_cases (x :: dir)) as [[? _]|[(s & _ & ->)|(s & y & _ & _ & ->)]];
      [done|done|]. cbn [app startswith] in *. by destruct (decide (PosixPath.sep = x)).
  - rewrite slashed_relative by (done || by right).
    rewrite !join2_relative by (done || (apply slashed_relative; done || by right)).
    by rewrite slashed_app, app_assoc.
Qed.

(** The components of a directory joined with a relative location in
    normal form: those of the directory, then those of the location. *)
Lemma components_join (cwd dir : pystr) (below : list pystr) :
  PosixPath.isabs cwd = true → Forall normal_comp below →
  components cwd (PosixPath.join dir [relative below]) = components cwd dir ++ below.
Proof.
  intros Hcwd Hall.
  destruct (relative_head below Hall) as (x & r & Hrel & Hx).
  pose proof (relative_not_absolute below Hall) as Hnot.
  rewrite !components_eq by done.
  rewrite absolutized_join by (done || by rewrite Hrel).
  pose proof (absolutized_absolute cwd dir Hcwd) as Habs.
  assert (Hne : absolutized cwd dir ≠ []) by (by destruct (absolutized cwd dir)).
  unfold normal_components at 1.
  rewrite Hrel at 1. rewrite initial_slashes_slashed by done.
  rewrite normpath_steps_slashed by done.
  by apply normpath_steps_relative.
Qed.

Lemma join_relative (below : list pystr) :
  Forall normal_comp below →
  match below with
  | [] => str "."
  | a :: p => PosixPath.join a p
  end = relative below.
Proof.
  intros Hall. destruct below as [|a p]; [done|]. by apply posix_join_normal.
Qed.

(** [relpath] of a path whose components extend those of the
    directory: what they extend them by. *)
Lemma relpath_components (cwd path dir : pystr) (below : list pystr) :
  path ≠ [] → Forall normal_comp below →
  components cwd path = components cwd dir ++ below →
  PosixPath.relpath cwd path (Some dir) = Ok (relative below).
Proof.
  intros Hne Hall Hcomps. unfold PosixPath.relpath.
  rewrite bool_decide_eq_false_2 by done.
  fold (components cwd dir). fold (components cwd path).
  rewrite Hcomps, commonprefix_app, Nat.sub_diag, drop_app_length.
  cbn [replicate app]. rewrite <- (join_relative below Hall).
  by destruct below.
Qed.

Lemma join_data (rel : pystr) :
  startswith [PosixPath.sep] rel = false →
  PosixPath.join DATA [rel] = DATA ++ PosixPath.sep :: rel.
Proof.
  intros Hrel. unfold PosixPath.join. cbn [foldl]. unfold PosixPath.join2.
  by rewrite Hrel.
Qed.

Lemma join_tempdir (tmpDir rel : pystr) :
  startswith [PosixPath.sep] rel = false →
  tmpDir ≠ [] → endswith [PosixPath.sep] tmpDir = false →
  PosixPath.join tmpDir [rel] = tmpDir ++ PosixPath.sep :: rel.
Proof.
  intros Hrel Hne Hend. unfold PosixPath.join. cbn [foldl]. unfold PosixPath.join2.
  rewrite Hrel, Hend. by rewrite bool_decide_eq_false_2.
Qed.

Section round_trip.
Variable cwd : pystr.
Variable inputs : gmap pystr dict.

(** C4, as the code has it. The working directory is an absolute path,
    as [os.getcwd()] is. An input declared with target [filepath] has
    a host path; it lies under the temporary directory when the
    components of the directory, made absolute and normalised as
    [os.path.relpath] does, are the first components of the path. Then
    [_transform_path] returns ["/data"], a slash and the relative
    location of the path: its further components joined by single
    slashes (["."] when there is none), and that is what the expansion
    puts in place of the placeholder. Joining that location back to
    the temporary directory gives a path with the components of the
    host path; it gives the host path itself exactly when the host path
    is written as the temporary directory joined with a relative
    location in normal form, and every path so written lies under the
    directory. Rewriting the ["/data"] prefix of the container path to
    the temporary directory, as the output extraction does, gives the
    directory, a slash and the location, which is the join when the
    directory is not empty and has no trailing slash. *)
Theorem filepath_input_round_trip :
  ∀ (before after : items) (key inputId : pystr) (ti binding : dict)
    (host tmpDir : pystr),
    PosixPath.isabs cwd = true →
    undeclared inputId before →
    descriptor_id ti = Ok inputId →
    ti !! str "target" = Some FILEPATH →
    inputs !! inputId = Some binding →
    binding !! SCRIPT_DATA = Some host →
    host ≠ [] →
    (∀ written, Forall normal_comp written →
       host = PosixPath.join tmpDir [relative written] →
       components cwd tmpDir `prefix_of` components cwd host)
    ∧ (components cwd tmpDir `prefix_of` components cwd host →
       ∃ below : list pystr,
         Forall normal_comp below
         ∧ components cwd host = components cwd tmpDir ++ below
         ∧ PosixPath.relpath cwd host (Some tmpDir) = Ok (relative below)
         ∧ _transform_path cwd inputs (before ++ (key, ti) :: after) (Some tmpDir) inputId
           = Ok (PosixPath.join DATA [relative below])
         ∧ (∀ arg, expand_step cwd inputs (before ++ (key, ti) :: after) (Some tmpDir)
                     arg inputId
                   = Ok (replace (placeholder inputId)
                           (PosixPath.join DATA [relative below]) arg))
         ∧ PosixPath.join DATA [relative below] = DATA ++ PosixPath.sep :: relative below
         ∧ components cwd (PosixPath.join tmpDir [relative below]) = components cwd host
         ∧ (PosixPath.join tmpDir [relative below] = host
            ↔ ∃ written, Forall normal_comp written
                         ∧ host = PosixPath.join tmpDir [relative written])
         ∧ replace_first DATA tmpDir (PosixPath.join DATA [relative below])
           = tmpDir ++ PosixPath.sep :: relative below
         ∧ (tmpDir ≠ [] → endswith [PosixPath.sep] tmpDir = false →
            PosixPath.join tmpDir [relative below]
            = tmpDir ++ PosixPath.sep :: relative below)).
Proof.
  intros before after key inputId ti binding host tmpDir Hcwd Hbefore Hid Htarget
    Hbinding Hdata Hne.
  split.
  { intros written Hwritten Hhost. exists written.
    rewrite Hhost at 1. by apply components_join. }
  intros [below Hbelow].
  assert (Hall : Forall normal_comp below).
  { pose proof (components_normal cwd host Hcwd) as Hn.
    rewrite Hbelow in Hn. by apply Forall_app in Hn as [_ ?]. }
  assert (Hrel : PosixPath.relpath cwd host (Some tmpDir) = Ok (relative below))
    by (by apply relpath_components).
  assert (Hjoin : PosixPath.join DATA [relative below]
                  = DATA ++ PosixPath.sep :: relative below)
    by (by apply join_data, relative_not_absolute).
  assert (Htransform : _transform_path cwd inputs (before ++ (key, ti) :: after)
                         (Some tmpDir) inputId
                       = Ok (PosixPath.join DATA [relative below])).
  { unfold _transform_path. induction Hbefore as [|[k d] before (tiId & Hd & Hother) _ IH].
    - cbn [app transform_path_loop]. rewrite Hid. cbn [bind].
      rewrite bool_decide_eq_true_2 by done. rewrite bool_decide_eq_true_2 by done.
      unfold script_data_of, getitem. rewrite Hbinding. cbn [bind].
      change (str "script_data") with SCRIPT_DATA. rewrite Hdata.
      cbn [bind]. by rewrite Hrel.
    - cbn [app transform_path_loop]. rewrite Hd. cbn [bind].
      by rewrite bool_decide_eq_false_2. }
  exists below. repeat apply conj; try done.
  - intros arg. rewrite expand_step_supplied by (by rewrite Hbinding).
    by rewrite Htransform.
  - rewrite components_join by done. by rewrite Hbelow.
  - intros Hback. exists below. by split.
  - intros (written & Hwritten & Hhost).
    assert (Hcomps : components cwd host = components cwd tmpDir ++ written)
      by (rewrite Hhost at 1; by apply components_join).
    rewrite Hbelow in Hcomps. apply app_inv_head in Hcomps. by subst written.
  - rewrite Hjoin. apply replace_first_prefix.
  - intros Hdir Hend. apply join_tempdir; [by apply relative_not_absolute | done | done].
Qed.
End round_trip.

(** Scenario A of the specification, and a job whose temporary
    directory and host path are given relative to the working
    directory. *)
Lemma filepath_input_round_trip_witness :
  (_transform_path (str "/home/worker") inputs_foo foo_filepath (Some (str "/tmp/job1"))
     (str "foo") = Ok (str "/data/in.txt")
   ∧ PosixPath.join (str "/tmp/job1") [str "in.txt"] = str "/tmp/job1/in.txt"
   ∧ replace_first DATA (str "/tmp/job1") (str "/data/in.txt") = str "/tmp/job1/in.txt")
  ∧ (let inputs : gmap pystr dict :=
       {[ str "foo" := {[ SCRIPT_DATA := str "job1/sub/in.txt" ]} ]} in
     _transform_path (str "/tmp") inputs foo_filepath (Some (str "job1/")) (str "foo")
     = Ok (str "/data/sub/in.txt")
     ∧ PosixPath.join (str "job1/") [str "sub/in.txt"] = str "job1/sub/in.txt").
Proof.
  split.
  - destruct (filepath_input_round_trip (str "/home/worker") inputs_foo [] []
                (str "foo") (str "foo")
                {[ str "id" := str "foo"; str "target" := FILEPATH ]}
                {[ SCRIPT_DATA := str "/tmp/job1/in.txt" ]}
                (str "/tmp/job1/in.txt") (str "/tmp/job1"))
      as [_ Hunder].
    + vm_compute; reflexivity.
    + constructor.
    + vm_compute; reflexivity.
    + vm_compute; reflexivity.
    + apply lookup_singleton_eq.
    + apply lookup_singleton_eq.
    + discriminate.
    + destruct Hunder as (below & _ & Hcomps & _ & Htransform & _ & Hdata & _ & Hexact & Hrewrite & _).
      * exists [str "in.txt"]. vm_compute. reflexivity.
      * assert (below = [str "in.txt"]) as ->.
        { apply (app_inv_head (components (str "/home/worker") (str "/tmp/job1"))).
          rewrite <- Hcomps. vm_compute. reflexivity. }
        split; [|split].
        -- rewrite Hdata in Htransform. exact Htransform.
        -- apply Hexact. exists [str "in.txt"]. split; [|vm_compute; reflexivity].
           repeat constructor; solve [apply (bool_decide_unpack _); vm_compute; reflexivity].
        -- rewrite Hdata in Hrewrite. exact Hrewrite.
  - destruct (filepath_input_round_trip (str "/tmp")
                {[ str "foo" := {[ SCRIPT_DATA := str "job1/sub/in.txt" ]} ]} [] []
                (str "foo") (str "foo")
                {[ str "id" := str "foo"; str "target" := FILEPATH ]}
                {[ SCRIPT_DATA := str "job1/sub/in.txt" ]}
                (str "job1/sub/in.txt") (str "job1/"))
      as [Hwritten Hunder].
    + vm_compute; reflexivity.
    + constructor.
    + vm_compute; reflexivity.
    + vm_compute; reflexivity.
    + apply lookup_singleton_eq.
    + apply lookup_singleton_eq.
    + discriminate.
    + assert (Hnormal : Forall normal_comp [str "sub"; str "in.txt"])
        by (repeat constructor;
            solve [apply (bool_decide_unpack _); vm_compute; reflexivity]).
      assert (Hform : str "job1/sub/in.txt"
                      = PosixPath.join (str "job1/") [relative [str "sub"; str "in.txt"]])
        by (vm_compute; reflexivity).
      destruct (Hunder (Hwritten _ Hnormal Hform))
        as (below & _ & Hcomps & _ & Htransform & _ & Hdata & _ & Hexact & _).
      assert (below = [str "sub"; str "in.txt"]) as ->.
      { apply (app_inv_head (components (str "/tmp") (str "job1/"))).
        rewrite <- Hcomps. vm_compute. reflexivity. }
      split.
      * rewrite Hdata in Htransform. exact Htransform.
      * apply Hexact. by exists [str "sub"; str "in.txt"].
Defined.

(** The reading of C4 that the code does not follow: the host path
    lies under the temporary directory but is not written as the
    directory joined with a location in normal form. Its location
    relative to the directory is normalised by [os.path.relpath], and
    putting that location back under the directory gives another
    spelling of the path, with the same components. *)
Lemma unnormalised_host_path_not_reproduced :
  let cwd := str "/home/worker" in
  let tmpDir := str "/tmp/job1" in
  let host := str "/tmp/job1//in.txt" in
  let inputs : gmap pystr dict := {[ str "foo" := {[ SCRIPT_DATA := host ]} ]} in
  startswith (tmpDir ++ str "/") host = true
  ∧ components cwd host = components cwd tmpDir ++ [str "in.txt"]
  ∧ PosixPath.relpath cwd host (Some tmpDir) = Ok (str "in.txt")
  ∧ _transform_path cwd inputs foo_filepath (Some tmpDir) (str "foo")
    = Ok (str "/data/in.txt")
  ∧ PosixPath.join tmpDir [str "in.txt"] ≠ host
  ∧ replace_first DATA tmpDir (str "/data/in.txt") ≠ host
  ∧ components cwd (PosixPath.join tmpDir [str "in.txt"]) = components cwd host.
Proof.
  cbv zeta. repeat apply conj; try (vm_compute; reflexivity); vm_compute; discriminate.
Qed.

(** * More on the executor *)

(** ** The descriptor lookup *)

Section lookup_properties.
Variable cwd : pystr.
Variable inputs : gmap pystr dict.

(** The lookup stops at the first descriptor that answers to the id:
    what comes after it plays no part. *)
Lemma transform_path_first (before after : items) (key inputId : pystr) (ti : dict)
    (tmpDir : option pystr) :
  undeclared inputId before →
  descriptor_id ti = Ok inputId →
  _transform_path cwd inputs (before ++ (key, ti) :: after) tmpDir inputId
  = if bool_decide (ti !! str "target" = Some FILEPATH)
    then let* data := script_data_of inputs inputId in
         let* rel := PosixPath.relpath cwd data tmpDir in
         Ok (PosixPath.join DATA [rel])
    else script_data_of inputs inputId.
Proof.
  intros Hbefore Hid. unfold _transform_path.
  induction Hbefore as [|[k d] before (tiId & Hd & Hne) _ IH].
  - cbn [app transform_path_loop]. rewrite Hid. cbn [bind].
    by rewrite bool_decide_eq_true_2.
  - cbn [app transform_path_loop]. rewrite Hd. cbn [bind].
    by rewrite bool_decide_eq_false_2.
Qed.

Lemma script_data_of_eq (inputId : pystr) (binding : dict) :
  inputs !! inputId = Some binding →
  script_data_of inputs inputId = getitem binding SCRIPT_DATA.
Proof. intros Hb. unfold script_data_of, getitem at 1. by rewrite Hb. Qed.

(** X1: an input whose first descriptor has a target other than
    [filepath] (or none) is substituted by its [script_data] as it is:
    no path is computed, whatever the temporary directory and the
    working directory are, and the step for its placeholder replaces
    the placeholder by that value. *)
Theorem plain_input_substituted_verbatim :
  ∀ (before after : items) (key inputId : pystr) (ti binding : dict)
    (value : pystr) (tmpDir : option pystr),
    undeclared inputId before →
    descriptor_id ti = Ok inputId →
    ti !! str "target" ≠ Some FILEPATH →
    inputs !! inputId = Some binding →
    binding !! SCRIPT_DATA = Some value →
    _transform_path cwd inputs (before ++ (key, ti) :: after) tmpDir inputId = Ok value
    ∧ ∀ arg, expand_step cwd inputs (before ++ (key, ti) :: after) tmpDir arg inputId
             = Ok (replace (placeholder inputId) value arg).
Proof.
  intros before after key inputId ti binding value tmpDir Hbefore Hid Htarget
    Hbinding Hvalue.
  assert (Htp : _transform_path cwd inputs (before ++ (key, ti) :: after) tmpDir inputId
                = Ok value).
  { rewrite transform_path_first by done.
    rewrite bool_decide_eq_false_2 by done.
    rewrite (script_data_of_eq inputId binding) by done.
    unfold getitem. by rewrite Hvalue. }
  split; [done|]. intros arg. unfold expand_step.
  rewrite bool_decide_eq_true_2 by (by rewrite Hbinding). by rewrite Htp.
Qed.

(** X2: what makes the expansion of a declared filepath input fail: a
    binding without [script_data] raises [KeyError], an empty
    [script_data] raises the [ValueError] of [os.path.relpath], and a
    call without temporary directory raises [AttributeError]. *)
Theorem filepath_input_errors :
  ∀ (before after : items) (key inputId : pystr) (ti binding : dict)
    (tmpDir : option pystr),
    undeclared inputId before →
    descriptor_id ti = Ok inputId →
    ti !! str "target" = Some FILEPATH →
    inputs !! inputId = Some binding →
    _transform_path cwd inputs (before ++ (key, ti) :: after) tmpDir inputId
    = match binding !! SCRIPT_DATA with
      | None => Raise (KeyError SCRIPT_DATA)
      | Some [] => Raise (ValueError (str "no path specified"))
      | Some (c :: data) =>
          match tmpDir with
          | None => Raise (AttributeError (str "startswith"))
          | Some dir =>
              let* rel := PosixPath.relpath cwd (c :: data) tmpDir in
              Ok (PosixPath.join DATA [rel])
          end
      end.
Proof.
  intros before after key inputId ti binding tmpDir Hbefore Hid Htarget Hbinding.
  rewrite transform_path_first by done.
  rewrite bool_decide_eq_true_2 by done.
  rewrite (script_data_of_eq inputId binding) by done.
  unfold getitem. destruct (binding !! SCRIPT_DATA) as [[|c data]|]; cbn [bind]; try done.
  destruct tmpDir; [done|]. unfold PosixPath.relpath.
  by rewrite bool_decide_eq_false_2.
Qed.
End lookup_properties.

Lemma plain_input_substituted_verbatim_witness :
  _transform_path (str "/home/worker") inputs_foo
    ([(str "bar", {[ str "id" := str "bar" ]})] ++ (str "foo", {[ str "name" := str "foo" ]}) :: [])
    None (str "foo") = Ok (str "/tmp/job1/in.txt").
Proof.
  apply (plain_input_substituted_verbatim (str "/home/worker") inputs_foo
           [(str "bar", {[ str "id" := str "bar" ]})] [] (str "foo") (str "foo")
           {[ str "name" := str "foo" ]} {[ SCRIPT_DATA := str "/tmp/job1/in.txt" ]}).
  - repeat constructor. exists (str "bar").
    split; [vm_compute; reflexivity | vm_compute; discriminate].
  - vm_compute; reflexivity.
  - vm_compute; discriminate.
  - apply lookup_singleton_eq.
  - apply lookup_singleton_eq.
Defined.

Lemma filepath_input_errors_witness :
  _transform_path (str "/home/worker") inputs_foo ([] ++ foo_filepath) None (str "foo")
  = Raise (AttributeError (str "startswith"))
  ∧ _transform_path (str "/home/worker") {[ str "foo" := ∅ ]} ([] ++ foo_filepath)
      (Some (str "/tmp/job1")) (str "foo")
    = Raise (KeyError SCRIPT_DATA).
Proof.
  unfold foo_filepath. split.
  - rewrite (filepath_input_errors (str "/home/worker") inputs_foo [] [] (str "foo")
               (str "foo") {[ str "id" := str "foo"; str "target" := FILEPATH ]}
               {[ SCRIPT_DATA := str "/tmp/job1/in.txt" ]} None);
      [ by rewrite lookup_singleton_eq | constructor | vm_compute; reflexivity
      | vm_compute; reflexivity | apply lookup_singleton_eq ].
  - rewrite (filepath_input_errors (str "/home/worker") {[ str "foo" := ∅ ]} [] []
               (str "foo") (str "foo")
               {[ str "id" := str "foo"; str "target" := FILEPATH ]} ∅
               (Some (str "/tmp/job1")));
      [ by rewrite lookup_empty | constructor | vm_compute; reflexivity
      | vm_compute; reflexivity | apply lookup_singleton_eq ].
Defined.

(** ** The scan for placeholders *)

Lemma occurs_drop (old s : pystr) (n : nat) : occurs old (drop n s) → occurs old s.
Proof.
  intros (pre & post & Heq). exists (take n s ++ pre), post.
  rewrite <- app_assoc, <- Heq. by rewrite take_drop.
Qed.

(** X3: every id that [re.findall] returns for an argument is not
    empty, has no closing brace, and its placeholder [$input{id}] is
    written in the argument. *)
Theorem findall_sound :
  ∀ s : pystr,
    Forall (λ inputId, inputId ≠ [] ∧ CLOSE ∉ inputId ∧ occurs (placeholder inputId) s)
      (findall s).
Proof.
  intros s. remember (length s) as len eqn:Hlen. revert s Hlen.
  induction len as [len IH] using lt_wf_ind. intros s Hlen.
  rewrite findall_step. destruct s as [|c s]; [constructor|].
  destruct (regex_match (c :: s)) as [inputId|] eqn:Hm.
  - apply regex_match_spec in Hm as (Hne & Hclose & [post Hpost]).
    constructor.
    + split; [done|]. split; [done|]. by exists [], post.
    + eapply Forall_impl.
      * apply (IH (length (drop (length (placeholder inputId)) (c :: s)))); [|done].
        rewrite length_drop. subst len. unfold placeholder, OPEN.
        rewrite length_app. simpl. lia.
      * intros i (? & ? & Hocc). split; [done|]. split; [done|].
        by eapply occurs_drop.
  - eapply Forall_impl.
    + apply (IH (length s)); [subst len; simpl; lia | done].
    + intros i (? & ? & Hocc). split; [done|]. split; [done|].
      apply occurs_cons. by right.
Qed.

Definition DOLLAR : ascii := "$"%char.

Lemma regex_match_no_dollar (c : ascii) (s : pystr) :
  c ≠ DOLLAR → regex_match (c :: s) = None.
Proof.
  intros Hc. unfold regex_match, OPEN. simpl.
  destruct (decide ("$"%char = c)) as [<-|]; done.
Qed.

Lemma findall_skip (pre s : pystr) : DOLLAR ∉ pre → findall (pre ++ s) = findall s.
Proof.
  induction pre as [|c pre IH]; [done|]. intros Hn.
  apply not_elem_of_cons in Hn as [Hc Hpre].
  cbn [app]. rewrite findall_step.
  rewrite regex_match_no_dollar by done. by apply IH.
Qed.

Lemma findall_none (s : pystr) : DOLLAR ∉ s → findall s = [].
Proof. intros Hs. rewrite <- (app_nil_r s). by rewrite findall_skip. Qed.

Lemma placeholder_cons (inputId : pystr) :
  ∃ r, placeholder inputId = DOLLAR :: r.
Proof. by eexists. Qed.

Lemma findall_after_prefix :
  ∀ pre inputId post : pystr,
    DOLLAR ∉ pre → inputId ≠ [] → CLOSE ∉ inputId →
    findall (pre ++ placeholder inputId ++ post) = inputId :: findall post.
Proof.
  intros pre inputId post Hpre Hne Hclose.
  rewrite findall_skip by done. rewrite findall_step.
  destruct (placeholder_cons inputId) as [r Hr].
  assert (Hm : regex_match (placeholder inputId ++ post) = Some inputId).
  { apply regex_match_spec. split; [done|]. split; [done|]. by exists post. }
  rewrite Hm, drop_app_length. rewrite Hr. reflexivity.
Qed.

(** X4: the scan passes over text without dollar sign, takes the
    placeholder that follows it, and resumes right after its closing
    brace. *)
Theorem findall_leading_placeholder :
  ∀ pre inputId post : pystr,
    DOLLAR ∉ pre → inputId ≠ [] → CLOSE ∉ inputId →
    findall (pre ++ placeholder inputId ++ post) = inputId :: findall post.
Proof. apply findall_after_prefix. Qed.

Lemma findall_leading_placeholder_witness :
  findall (str "--in=" ++ placeholder (str "foo") ++ str ",$input{bar}")
  = str "foo" :: findall (str ",$input{bar}").
Proof.
  apply findall_leading_placeholder.
  - apply (bool_decide_unpack _). vm_compute. reflexivity.
  - discriminate.
  - apply (bool_decide_unpack _). vm_compute. reflexivity.
Defined.

(** ** Replacement *)

Lemma replace_skip (old new pre s : pystr) (c : ascii) (old' : pystr) :
  old = c :: old' → c ∉ pre → replace old new (pre ++ s) = pre ++ replace old new s.
Proof.
  intros Hold. induction pre as [|x pre IH]; [done|]. intros Hn.
  apply not_elem_of_cons in Hn as [Hc Hpre].
  cbn [app]. rewrite replace_step by (by subst old).
  assert (startswith old (x :: pre ++ s) = false) as ->.
  { subst old. simpl. by rewrite decide_False. }
  by rewrite IH.
Qed.

Lemma replace_head (old new s : pystr) :
  old ≠ [] → replace old new (old ++ s) = new ++ replace old new s.
Proof.
  intros Hold. rewrite replace_step by done.
  by rewrite startswith_app, drop_app_length.
Qed.

Lemma absent_no_occurrence (c : ascii) (old' s : pystr) :
  c ∉ s → ¬ occurs (c :: old') s.
Proof.
  intros Hn (pre & post & ->). apply Hn.
  apply elem_of_app. right. apply list_elem_of_here.
Qed.

Section single_placeholder.
Variable cwd : pystr.
Variable inputs : gmap pystr dict.
Variable taskInputs : items.
Variable tmpDir : option pystr.

(** X6: in an argument whose only dollar sign is that of one
    placeholder, for an input that is supplied and resolves to a value,
    the placeholder is replaced by the value and the text around it is
    kept; the value is put in as it is, also when it contains a
    placeholder itself. *)
Theorem single_placeholder_expanded :
  ∀ pre post inputId value : pystr,
    DOLLAR ∉ pre → DOLLAR ∉ post → inputId ≠ [] → CLOSE ∉ inputId →
    is_Some (inputs !! inputId) →
    _transform_path cwd inputs taskInputs tmpDir inputId = Ok value →
    expand_arg cwd inputs taskInputs tmpDir (pre ++ placeholder inputId ++ post)
    = Ok (pre ++ value ++ post).
Proof.
  intros pre post inputId value Hpre Hpost Hne Hclose Hsome Hvalue.
  unfold expand_arg. rewrite findall_after_prefix by done.
  rewrite findall_none by done. cbn [expand_steps]. unfold expand_step.
  rewrite bool_decide_eq_true_2 by done. rewrite Hvalue. cbn [bind].
  destruct (placeholder_cons inputId) as [r Hr].
  rewrite (replace_skip _ _ _ _ DOLLAR r) by done.
  rewrite replace_head by (by rewrite Hr).
  rewrite replace_absent; [done | by rewrite Hr |].
  rewrite Hr. by apply absent_no_occurrence.
Qed.
End single_placeholder.

Lemma single_placeholder_expanded_witness :
  let inputs : gmap pystr dict := {[ str "pattern" := {[ SCRIPT_DATA := str "$input{foo}" ]} ]} in
  let tis : items := [(str "pattern", {[ str "id" := str "pattern" ]})] in
  expand_arg (str "/") inputs tis None
    (str "--grep=" ++ placeholder (str "pattern") ++ str " -v")
  = Ok (str "--grep=" ++ str "$input{foo}" ++ str " -v").
Proof.
  apply single_placeholder_expanded.
  - apply (bool_decide_unpack _). vm_compute. reflexivity.
  - apply (bool_decide_unpack _). vm_compute. reflexivity.
  - discriminate.
  - apply (bool_decide_unpack _). vm_compute. reflexivity.
  - rewrite lookup_singleton_eq. by eexists.
  - vm_compute. reflexivity.
Defined.

(** ** Argument lists *)

Section list_properties.
Variable cwd : pystr.
Variable inputs : gmap pystr dict.
Variable taskInputs : items.
Variable tmpDir : option pystr.

Lemma expand_loop_acc (newArgs args : list pystr) :
  expand_loop cwd inputs taskInputs tmpDir newArgs args
  = let* out := expand_loop cwd inputs taskInputs tmpDir [] args in Ok (newArgs ++ out).
Proof.
  revert newArgs. induction args as [|arg args IH]; intros newArgs; cbn [expand_loop].
  - cbn [bind]. by rewrite app_nil_r.
  - destruct (expand_arg cwd inputs taskInputs tmpDir arg) as [arg'|e]; cbn [bind]; [|done].
    rewrite (IH (newArgs ++ [arg'])), (IH ([] ++ [arg'])).
    destruct (expand_loop cwd inputs taskInputs tmpDir [] args); cbn [bind]; [|done].
    by rewrite <- app_assoc.
Qed.

(** X5: expanding a list of arguments is expanding its parts and
    putting the results together; an exception raised by an argument is
    the outcome for every list in which the arguments before it expand
    without error, whatever follows. *)
Theorem expand_args_app :
  ∀ args1 args2 : list pystr,
    _expand_args cwd inputs taskInputs tmpDir (args1 ++ args2)
    = (let* out1 := _expand_args cwd inputs taskInputs tmpDir args1 in
       let* out2 := _expand_args cwd inputs taskInputs tmpDir args2 in
       Ok (out1 ++ out2))
    ∧ ∀ arg e, expand_arg cwd inputs taskInputs tmpDir arg = Raise e →
        is_Raise (_expand_args cwd inputs taskInputs tmpDir args1)
        ∨ _expand_args cwd inputs taskInputs tmpDir (args1 ++ arg :: args2) = Raise e.
Proof.
  intros args1 args2.
  assert (Happ : ∀ l1 l2,
            _expand_args cwd inputs taskInputs tmpDir (l1 ++ l2)
            = (let* out1 := _expand_args cwd inputs taskInputs tmpDir l1 in
               let* out2 := _expand_args cwd inputs taskInputs tmpDir l2 in
               Ok (out1 ++ out2))).
  { intros l1 l2. unfold _expand_args. rewrite expand_loop_app.
    destruct (expand_loop cwd inputs taskInputs tmpDir [] l1) as [out1|e]; cbn [bind]; [|done].
    apply expand_loop_acc. }
  split; [apply Happ|]. intros arg e Harg. rewrite Happ.
  destruct (_expand_args cwd inputs taskInputs tmpDir args1) as [out1|e1]; [|by left].
  right. cbn [bind]. unfold _expand_args. cbn [expand_loop]. by rewrite Harg.
Qed.
End list_properties.

(** ** Exit codes in messages *)

(** X15: the message of the exception raised for a failed pull, a
    failed container run or a failed reclaimer tells the exit code:
    different codes give different exceptions. *)
Theorem exit_code_in_message :
  ∀ a b : Z,
    (pull_error a = pull_error b → a = b)
    ∧ (run_error a = run_error b → a = b)
    ∧ (gc_error a = gc_error b → a = b).
Proof.
  intros a b. unfold pull_error, run_error, gc_error.
  repeat split; intros [= Heq]; apply app_inv_tail in Heq; by apply str_of_Z_inj.
Qed.

(** ** Before the container *)

Section before_container.
Context {W : Type} `{Host W}.

(** X9: a task without [docker_image] makes [run] raise [KeyError]
    before anything is done: the state is the one it was called in. *)
Theorem run_needs_image :
  ∀ (task : task_spec) (inputs : gmap pystr dict) (task_inputs task_outputs : items)
    (tempdir : option pystr) (st : state W),
    docker_image task = None →
    run task inputs task_inputs task_outputs tempdir st
    = (Raise (KeyError (str "docker_image")), st).
Proof.
  intros task inputs task_inputs task_outputs tempdir st Himage.
  unfold run, run_prepare. rewrite Himage. reflexivity.
Qed.

(** X10: when the image is to be pulled (the default) and [docker
    pull] exits with a status other than 0, [run] prints the status
    line and the two captured streams and raises "Docker pull returned
    code ..."; the arguments are not expanded, the output bindings not
    touched and the container not started. *)
Theorem failed_pull_raises :
  ∀ (task : task_spec) (inputs : gmap pystr dict) (task_inputs task_outputs : items)
    (tempdir : option pystr) (st : state W)
    (image stdout stderr : pystr) (returncode : Z),
    let pulled :=
      popen_communicate [str "docker"; str "pull"; image]
        (print (str "Pulling docker image: " ++ image) (world st)) in
    docker_image task = Some image →
    pull_image task ≠ Some false →
    fst pulled = Ok (returncode, stdout, stderr) →
    returncode ≠ 0%Z →
    run task inputs task_inputs task_outputs tempdir st
    = (Raise (pull_error returncode),
       {| world := print (str "STDERR: " ++ stderr)
                     (print (str "STDOUT: " ++ stdout)
                        (print (str "Error pulling docker image " ++ image ++ str ":")
                           (snd pulled)));
          outputs := outputs st |}).
Proof.
  intros task inputs task_inputs task_outputs tempdir st image stdout stderr
    returncode pulled Himage Hpull Hfst Hcode.
  assert (Hdefault : default true (pull_image task) = true)
    by (destruct (pull_image task) as [[]|]; done).
  unfold run, run_prepare. rewrite Himage, Hdefault.
  cbv beta iota zeta delta [mbind of_result tell _pull_image try raise ret].
  cbn [world outputs]. fold pulled.
  destruct pulled as [r w]. simpl in Hfst. subst r. cbn [snd].
  by rewrite bool_decide_eq_true_2.
Qed.

(** X7: when the [docker-gc] script is not a file beside the module,
    or is not executable, [_docker_gc] raises saying so and does
    nothing else: no file is written and no process started. *)
Theorem docker_gc_unavailable :
  ∀ (tempdir : pystr) (st : state W),
    let script := PosixPath.join module_dir [str "docker-gc"] in
    os_path_isfile (world st) script && os_access_X_OK (world st) script = false →
    _docker_gc tempdir st
    = (Raise (if os_path_isfile (world st) script
              then gc_not_executable_error script
              else gc_not_found_error script), st).
Proof.
  intros tempdir st script Hcheck. unfold _docker_gc. fold script.
  cbv beta iota zeta delta [mbind ask raise].
  destruct (os_path_isfile (world st) script); [|done].
  cbn [andb negb] in *. by rewrite Hcheck.
Qed.

(** X19: without temporary directory ([_tempdir] not given) [run]
    never returns normally: a container that exits with status 0 is
    followed by the [AttributeError] of joining [None] with the name of
    the scratch directory, raised before any directory is made or
    reclaimer started. *)
Theorem run_without_tempdir_never_returns :
  ∀ (task : task_spec) (inputs : gmap pystr dict) (task_inputs task_outputs : items)
    (st : state W),
    is_Raise (fst (run task inputs task_inputs task_outputs None st))
    ∧ ∀ st', run_collect task_outputs None st'
             = (Raise (AttributeError (str "endswith")),
                {| world := print (str "Garbage collecting old containers and images.")
                              (world st');
                   outputs := outputs st' |}).
Proof.
  intros task inputs task_inputs task_outputs st. split; [|done].
  unfold run, mbind.
  destruct (run_prepare task inputs task_inputs task_outputs None st)
    as [[[[command print_stdout] print_stderr]|e] st1]; [|done].
  destruct (container_run command print_stdout print_stderr st1)
    as [[returncode|e] st2]; [|done].
  by destruct (bool_decide (returncode ≠ 0%Z)).
Qed.
End before_container.

Lemma run_needs_image_witness :
  let task := {| docker_image := None; pull_image := Some false; entrypoint := None;
                 docker_run_args := None; container_args := None |} in
  let st := {| world := sim_worker 0 []; outputs := job_slots |} in
  run task inputs_foo foo_filepath job_outputs (Some (str "/tmp/job1")) st
  = (Raise (KeyError (str "docker_image")), st).
Proof. cbv zeta. by apply run_needs_image. Defined.

(** A worker on which [docker pull] fails with status 1. *)
Definition sim_no_registry : sim :=
  {| sim_cwd := str "/home/worker"; sim_uid := 1000; sim_environ := ∅;
     sim_paths := ∅; sim_executables := ∅; sim_config := ∅;
     sim_pull_code := 1; sim_container_code := 0; sim_container_files := [];
     sim_container_stdout := []; sim_gc_code := 0; sim_log := [] |}.

Lemma failed_pull_raises_witness :
  let st := {| world := sim_no_registry; outputs := job_slots |} in
  fst (run job_task inputs_foo foo_filepath job_outputs (Some (str "/tmp/job1")) st)
  = Raise (Exception (str "Docker pull returned code 1."))
  ∧ sim_log (world (snd (run job_task inputs_foo foo_filepath job_outputs
                           (Some (str "/tmp/job1")) st)))
    = [Printed (str "Pulling docker image: busybox");
       Communicated [str "docker"; str "pull"; str "busybox"];
       Printed (str "Error pulling docker image busybox:");
       Printed (str "STDOUT: "); Printed (str "STDERR: ")].
Proof.
  cbv zeta.
  rewrite (failed_pull_raises job_task inputs_foo foo_filepath job_outputs
             (Some (str "/tmp/job1")) {| world := sim_no_registry; outputs := job_slots |}
             (str "busybox") [] [] 1);
    [ | reflexivity | discriminate | vm_compute; reflexivity | discriminate ].
  split; vm_compute; reflexivity.
Defined.

Lemma docker_gc_unavailable_witness :
  let st := {| world := sim_no_registry; outputs := ∅ |} in
  _docker_gc (str "/tmp/job1/docker_gc_scratch") st
  = (Raise (Exception (str "Docker GC script /opt/worker/plugins/docker/docker-gc not found.")),
     st).
Proof.
  cbv zeta. rewrite docker_gc_unavailable by (vm_compute; reflexivity).
  f_equal.
Defined.

(** ** Output paths *)

(** X16: the host path of a filepath output is computed whether or not
    the output was validated. For a relative path it is the temporary
    directory, a slash and the path. For an absolute path in which
    ["/data"] is nowhere written it is the path itself, a path of the
    host outside the temporary directory. *)
Theorem host_path_cases :
  ∀ (tempdir name : pystr) (task_output : dict),
    (startswith (str "/") (effective_path name task_output) = false →
     host_path tempdir name task_output
     = tempdir ++ str "/" ++ effective_path name task_output)
    ∧ (startswith (str "/") (effective_path name task_output) = true →
       ¬ occurs DATA (effective_path name task_output) →
       host_path tempdir name task_output = effective_path name task_output).
Proof.
  intros tempdir name task_output. unfold host_path. split.
  - intros ->. cbn [negb]. apply (replace_first_prefix DATA tempdir).
  - intros -> Hno. cbn [negb].
    induction (effective_path name task_output) as [|c s IH]; [done|].
    cbn [replace_first].
    destruct (startswith DATA (c :: s)) eqn:Hs.
    + exfalso. apply Hno. apply startswith_prefix in Hs as [post ->]. by exists [], post.
    + f_equal. apply IH. intros Hocc. apply Hno. apply occurs_cons. by right.
Qed.

Example host_path_examples :
  host_path (str "/tmp/job1") (str "out.csv") {[ str "target" := FILEPATH ]}
  = str "/tmp/job1/out.csv"
  ∧ host_path (str "/tmp/job1") (str "result")
      {[ str "target" := FILEPATH; str "path" := str "/etc/passwd" ]}
    = str "/etc/passwd"
  ∧ host_path (str "/tmp/job1") (str "result")
      {[ str "target" := FILEPATH; str "path" := str "/srv/data/x" ]}
    = str "/srv/tmp/job1/x".
Proof. repeat apply conj; vm_compute; reflexivity. Qed.

(** ** The first refused output *)

(** X17: [validate_task_outputs] stops at the first descriptor it
    refuses, in iteration order, and its message is the one for that
    descriptor: about the path for a filepath output, about the kind of
    output otherwise. Descriptors after it are not looked at. *)
Theorem validate_first_refused :
  ∀ (before after : items) (name : pystr) (spec : dict),
    validate_task_outputs before = Ok tt →
    refused name spec →
    validate_task_outputs (before ++ (name, spec) :: after)
    = Raise (TaskSpecValidationError
               (if is_filepath spec then invalid_path_message
                else invalid_output_message)).
Proof.
  intros before after name spec Hbefore Hrefused.
  induction before as [|[n d] before IH].
  - cbn [app]. rewrite validate_cons. apply refused_head in Hrefused.
    destruct (is_filepath spec); by rewrite Hrefused.
  - cbn [app]. rewrite validate_cons in *.
    destruct (is_filepath d);
      match goal with |- context [if ?b then Raise _ else _] => destruct b end;
      try done; by apply IH.
Qed.

Lemma validate_first_refused_witness :
  validate_task_outputs
    ([(STDOUT, ∅)] ++ (str "log", {[ str "target" := str "memory" ]})
       :: [(str "/etc/shadow", {[ str "target" := FILEPATH ]})])
  = Raise (TaskSpecValidationError invalid_output_message).
Proof.
  rewrite (validate_first_refused [(STDOUT, ∅)] _ (str "log")
             {[ str "target" := str "memory" ]}).
  - vm_compute; reflexivity.
  - vm_compute; reflexivity.
  - right. repeat split; vm_compute; discriminate.
Defined.

(** ** Extraction of the outputs *)

Section extraction.
Context {W : Type} `{Host W}.

(** The body of the extraction loop, case by case. *)
Lemma extract_output_eq (tempdir name : pystr) (task_output : dict) (st : state W) :
  extract_output tempdir name task_output st
  = if is_filepath task_output then
      if os_path_exists (world st) (host_path tempdir name task_output) then
        match outputs st !! name with
        | Some slot =>
            (Ok tt, {| world := world st;
                       outputs := <[name := <[SCRIPT_DATA := host_path tempdir name task_output]>
                                               slot]> (outputs st) |})
        | None => (Raise (KeyError name), st)
        end
      else (Raise (missing_output_error (host_path tempdir name task_output)), st)
    else (Ok tt, st).
Proof.
  unfold extract_output. destruct (is_filepath task_output); [|done].
  cbv beta iota zeta delta [mbind ask raise set_script_data].
  by destruct (os_path_exists (world st) (host_path tempdir name task_output)).
Qed.

(** The names of the filepath outputs of a task. *)
Definition filepath_names (task_outputs : items) : list pystr :=
  (filter (λ item : pystr * dict, is_filepath item.2 = true) task_outputs).*1.

Lemma filepath_names_cons (name : pystr) (task_output : dict) (rest : items) :
  filepath_names ((name, task_output) :: rest)
  = if is_filepath task_output then name :: filepath_names rest else filepath_names rest.
Proof.
  unfold filepath_names. destruct (is_filepath task_output) eqn:Hfp.
  - by rewrite filter_cons_True.
  - rewrite filter_cons_False; [done|]. simpl. by rewrite Hfp.
Qed.

Lemma extract_outputs_frame :
  ∀ (tempdir : pystr) (task_outputs : items) (st : state W),
    let st' := snd (extract_outputs tempdir task_outputs st) in
    world st' = world st
    ∧ (∀ name, is_Some (outputs st' !! name) ↔ is_Some (outputs st !! name))
    ∧ (∀ name, name ∉ filepath_names task_outputs →
         outputs st' !! name = outputs st !! name).
Proof.
  intros tempdir task_outputs. induction task_outputs as [|[name task_output] rest IH];
    intros st; [done|].
  cbn [extract_outputs]. unfold mbind. rewrite extract_output_eq.
  rewrite filepath_names_cons.
  destruct (is_filepath task_output); [|apply IH].
  destruct (os_path_exists (world st) (host_path tempdir name task_output));
    [|cbn [snd]; naive_solver].
  destruct (outputs st !! name) as [slot|] eqn:Hslot; [|cbn [snd]; naive_solver].
  match goal with |- context [extract_outputs tempdir rest ?s] =>
    destruct (IH s) as (Hw & Hdom & Hother) end.
  cbn [world outputs] in *. split; [done|]. split.
  - intros n. rewrite Hdom. destruct (decide (n = name)) as [->|Hn].
    + rewrite lookup_insert_eq, Hslot. by split; eexists.
    + by rewrite lookup_insert_ne.
  - intros n Hn. apply not_elem_of_cons in Hn as [Hne Hn].
    rewrite Hother by done. by rewrite lookup_insert_ne.
Qed.

(** X13: whether it returns or raises, the extraction leaves the world
    as it is (it starts nothing, writes nothing and waits for nothing),
    adds and removes no binding, and leaves alone the binding of every
    name that is not a filepath output of the task. *)
Theorem extraction_keeps :
  ∀ (tempdir : pystr) (task_outputs : items) (st : state W),
    let st' := snd (extract_outputs tempdir task_outputs st) in
    world st' = world st
    ∧ (∀ name, is_Some (outputs st' !! name) ↔ is_Some (outputs st !! name))
    ∧ (∀ name, name ∉ filepath_names task_outputs →
         outputs st' !! name = outputs st !! name).
Proof. apply extract_outputs_frame. Qed.

(** What each filepath output needs for its extraction: a binding, and
    something at its host path. *)
Definition extractable (tempdir : pystr) (st : state W) (item : pystr * dict) : Prop :=
  is_filepath item.2 = true →
  is_Some (outputs st !! item.1)
  ∧ os_path_exists (world st) (host_path tempdir item.1 item.2) = true.

Lemma extractable_step (tempdir : pystr) (st st1 : state W) (rest : items) :
  world st1 = world st →
  (∀ name, is_Some (outputs st1 !! name) ↔ is_Some (outputs st !! name)) →
  Forall (extractable tempdir st) rest → Forall (extractable tempdir st1) rest.
Proof.
  intros Hw Hdom Hall. eapply Forall_impl; [exact Hall|]. intros item Hitem Hfp.
  destruct (Hitem Hfp) as [Hsome Hexists]. by rewrite Hdom, Hw.
Qed.

(** X12: when every filepath output of the task has a binding and
    something exists at its host path, the extraction returns, and the
    [script_data] of each filepath output is its host path (the names
    of the outputs being distinct, as the keys of a dictionary are). *)
Theorem extraction_stores_host_paths :
  ∀ (tempdir : pystr) (task_outputs : items) (st : state W),
    Forall (extractable tempdir st) task_outputs →
    NoDup task_outputs.*1 →
    let result := extract_outputs tempdir task_outputs st in
    fst result = Ok tt
    ∧ Forall (λ item : pystr * dict,
                is_filepath item.2 = true →
                ∃ slot, outputs (snd result) !! item.1 = Some slot
                        ∧ slot !! SCRIPT_DATA = Some (host_path tempdir item.1 item.2))
        task_outputs.
Proof.
  intros tempdir task_outputs. induction task_outputs as [|[name task_output] rest IH];
    intros st Hall Hnodup; [by split|].
  apply Forall_cons in Hall as [Hhead Hrest].
  rewrite fmap_cons in Hnodup. apply NoDup_cons in Hnodup as [Hfresh Hnodup].
  cbn [fst] in Hfresh.
  cbn zeta. cbn [extract_outputs]. unfold mbind. rewrite extract_output_eq.
  destruct (is_filepath task_output) eqn:Hfp.
  - destruct (Hhead Hfp) as [[slot Hslot] Hexists]. cbn [fst snd] in *.
    rewrite Hexists, Hslot.
    match goal with |- context [extract_outputs tempdir rest ?s] => set (st1 := s) end.
    assert (Hrest1 : Forall (extractable tempdir st1) rest).
    { apply (extractable_step tempdir st); [done| |done].
      intros n. unfold st1. cbn [outputs]. destruct (decide (n = name)) as [->|Hn].
      - rewrite lookup_insert_eq, Hslot. by split; eexists.
      - by rewrite lookup_insert_ne. }
    destruct (IH st1 Hrest1 Hnodup) as [Hok Hstored].
    split; [done|]. constructor; [|done]. intros _. cbn [fst snd].
    destruct (extract_outputs_frame tempdir rest st1) as (_ & _ & Hother).
    rewrite Hother.
    + unfold st1. cbn [outputs]. rewrite lookup_insert_eq. eexists. split; [done|].
      by rewrite lookup_insert_eq.
    + intros Hin. apply Hfresh. unfold filepath_names in Hin.
      apply list_elem_of_fmap in Hin as (item & -> & Hitem).
      apply list_elem_of_filter in Hitem as [_ Hitem].
      apply list_elem_of_fmap. by exists item.
  - destruct (IH st Hrest Hnodup) as [Hok Hstored].
    split; [done|]. constructor; [|done]. intros Hfp'. cbn [snd] in Hfp'. congruence.
Qed.

(** X14: the extraction raises for the first filepath output, in
    iteration order, at whose host path nothing exists, with the
    message "Output filepath ... does not exist."; the outputs after it
    are not looked at. *)
Theorem first_missing_output_raises :
  ∀ (tempdir : pystr) (before after : items) (name : pystr) (task_output : dict)
    (st : state W),
    Forall (extractable tempdir st) before →
    is_filepath task_output = true →
    os_path_exists (world st) (host_path tempdir name task_output) = false →
    fst (extract_outputs tempdir (before ++ (name, task_output) :: after) st)
    = Raise (missing_output_error (host_path tempdir name task_output)).
Proof.
  intros tempdir before after name task_output.
  induction before as [|[n d] before IH]; intros st Hbefore Hfp Hmissing.
  - cbn [app extract_outputs]. unfold mbind. rewrite extract_output_eq.
    by rewrite Hfp, Hmissing.
  - apply Forall_cons in Hbefore as [Hhead Hbefore].
    cbn [app extract_outputs]. unfold mbind. rewrite extract_output_eq.
    destruct (is_filepath d) eqn:Hd; [|by apply IH].
    destruct (Hhead Hd) as [[slot Hslot] Hexists]. cbn [fst snd] in *.
    rewrite Hexists, Hslot. apply IH; [|done|done].
    apply (extractable_step tempdir st); [done| |done].
    intros k. cbn [outputs]. destruct (decide (k = n)) as [->|Hk].
    + rewrite lookup_insert_eq, Hslot. by split; eexists.
    + by rewrite lookup_insert_ne.
Qed.
End extraction.

Lemma extraction_stores_host_paths_witness :
  let result := extract_outputs (str "/tmp/job1") job_outputs job_collected in
  fst result = Ok tt
  ∧ Forall (λ item : pystr * dict,
              is_filepath item.2 = true →
              ∃ slot, outputs (snd result) !! item.1 = Some slot
                      ∧ slot !! SCRIPT_DATA = Some (host_path (str "/tmp/job1") item.1 item.2))
      job_outputs.
Proof.
  apply extraction_stores_host_paths.
  - unfold job_outputs. apply Forall_cons_2; [|apply Forall_cons_2; [|apply Forall_nil_2]].
    + intros _. split.
      * apply (bool_decide_unpack _). vm_compute. reflexivity.
      * vm_compute. reflexivity.
    + intros Hfp. vm_compute in Hfp. discriminate.
  - apply (bool_decide_unpack _). vm_compute. reflexivity.
Defined.

Lemma first_missing_output_raises_witness :
  fst (extract_outputs (str "/tmp/job1")
         ([(STDOUT, ∅)] ++ (str "result", result_output) :: [])
         {| world := sim_worker 0 []; outputs := job_slots |})
  = Raise (missing_output_error (host_path (str "/tmp/job1") (str "result") result_output)).
Proof.
  apply first_missing_output_raises.
  - apply Forall_cons_2; [|apply Forall_nil_2].
    intros Hfp. vm_compute in Hfp. discriminate.
  - vm_compute. reflexivity.
  - vm_compute. reflexivity.
Defined.

(** ** The declared streams *)

Section streams.
Context {W : Type} `{Host W}.

Lemma set_script_data_eq (name value : pystr) (slot : dict) (st : state W) :
  outputs st !! name = Some slot →
  set_script_data name value st
  = (Ok tt, {| world := world st;
               outputs := <[name := <[SCRIPT_DATA := value]> slot]> (outputs st) |}).
Proof. intros Hslot. unfold set_script_data. by rewrite Hslot. Qed.

(** The bindings after the loop of lines 151 to 158: the two streams
    that are declared have an empty [script_data], the rest is as it
    was. *)
Definition streams_declared (ids : list pystr) (outs : gmap pystr dict)
    (name : pystr) : option dict :=
  if bool_decide (name ∈ ids ∧ name ∈ [STDOUT; STDERR])
  then <[SCRIPT_DATA := []]> <$> outs !! name
  else outs !! name.

Lemma declare_streams_gen (task_outputs : items) (flags : bool * bool) (st : state W) :
  (STDERR ∈ task_outputs.*1 → is_Some (outputs st !! STDERR)) →
  (STDOUT ∈ task_outputs.*1 → is_Some (outputs st !! STDOUT)) →
  ∃ outs',
    declare_streams task_outputs flags st
    = (Ok (flags.1 && bool_decide (STDERR ∉ task_outputs.*1),
           flags.2 && bool_decide (STDOUT ∉ task_outputs.*1)),
       {| world := world st; outputs := outs' |})
    ∧ ∀ name, outs' !! name = streams_declared task_outputs.*1 (outputs st) name.
Proof.
  revert flags st. induction task_outputs as [|[id spec] rest IH];
    intros [f1 f2] st Herr Hout.
  - exists (outputs st). cbn [declare_streams fmap list_fmap fst snd]. split.
    + unfold ret. destruct st as [w o]. cbn [world outputs].
      rewrite !bool_decide_eq_true_2 by apply not_elem_of_nil.
      by rewrite !andb_true_r.
    + intros name. unfold streams_declared.
      rewrite bool_decide_eq_false_2; [done|]. intros [Hin _]. by apply elem_of_nil in Hin.
  - rewrite fmap_cons in *. cbn [fst] in *. cbn [declare_streams].
    assert (Hstep : ∀ (target : pystr) (slot : dict) (flags' : bool * bool),
              id = target → target ∈ [STDOUT; STDERR] →
              outputs st !! target = Some slot →
              flags'.1 = (f1 && bool_decide (STDERR ≠ id)) →
              flags'.2 = (f2 && bool_decide (STDOUT ≠ id)) →
              ∃ outs',
                declare_streams rest flags'
                  {| world := world st;
                     outputs := <[target := <[SCRIPT_DATA := []]> slot]> (outputs st) |}
                = (Ok ((f1, f2).1 && bool_decide (STDERR ∉ id :: rest.*1),
                       (f1, f2).2 && bool_decide (STDOUT ∉ id :: rest.*1)),
                   {| world := world st; outputs := outs' |})
                ∧ ∀ name, outs' !! name = streams_declared (id :: rest.*1) (outputs st) name).
    { intros target slot flags' -> Htarget Hslot Hf1 Hf2.
      set (st1 := {| world := world st;
                     outputs := <[target := <[SCRIPT_DATA := []]> slot]> (outputs st) |}).
      assert (Hkeep : ∀ n, is_Some (outputs st1 !! n) ↔ is_Some (outputs st !! n)).
      { intros n. unfold st1. cbn [outputs]. destruct (decide (n = target)) as [->|Hn].
        - rewrite lookup_insert_eq, Hslot. by split; eexists.
        - by rewrite lookup_insert_ne. }
      destruct (IH flags' st1) as (outs' & Heq & Hlookup).
      { intros Hin. apply Hkeep, Herr. by apply list_elem_of_further. }
      { intros Hin. apply Hkeep, Hout. by apply list_elem_of_further. }
      exists outs'. split.
      - rewrite Heq. cbn [world fst snd]. rewrite Hf1, Hf2. do 2 f_equal.
        f_equal.
        + rewrite <- andb_assoc. f_equal.
          rewrite (bool_decide_ext (STDERR ∉ target :: rest.*1)
                     (STDERR ≠ target ∧ STDERR ∉ rest.*1)) by apply not_elem_of_cons.
          by rewrite bool_decide_and.
        + rewrite <- andb_assoc. f_equal.
          rewrite (bool_decide_ext (STDOUT ∉ target :: rest.*1)
                     (STDOUT ≠ target ∧ STDOUT ∉ rest.*1)) by apply not_elem_of_cons.
          by rewrite bool_decide_and.
      - intros name. rewrite Hlookup. unfold streams_declared, st1. cbn [outputs].
        destruct (decide (name = target)) as [->|Hne].
        + rewrite lookup_insert_eq, Hslot.
          rewrite (bool_decide_eq_true_2 (target ∈ target :: rest.*1 ∧ _))
            by (split; [apply list_elem_of_here | done]).
          cbn [fmap option_fmap option_map].
          rewrite insert_insert_eq.
          by destruct (bool_decide (target ∈ rest.*1 ∧ target ∈ [STDOUT; STDERR])).
        + rewrite lookup_insert_ne by done.
          apply (f_equal (λ b : bool, if b then _ else _)).
          apply bool_decide_ext. rewrite (elem_of_cons rest.*1 name target).
          naive_solver. }
    destruct (decide (id = STDERR)) as [->|Hid_err].
    + rewrite bool_decide_eq_true_2 by done.
      destruct (Herr ltac:(apply list_elem_of_here)) as [slot Hslot].
      unfold mbind. rewrite (set_script_data_eq STDERR [] slot) by done.
      apply (Hstep STDERR slot);
        [ done | apply list_elem_of_further, list_elem_of_here | done | | ].
      * cbn [fst]. rewrite bool_decide_eq_false_2 by (intros Hn; by apply Hn).
        by rewrite andb_false_r.
      * cbn [snd]. rewrite bool_decide_eq_true_2 by done. by rewrite andb_true_r.
    + rewrite bool_decide_eq_false_2 by done.
      destruct (decide (id = STDOUT)) as [->|Hid_out].
      * rewrite bool_decide_eq_true_2 by done.
        destruct (Hout ltac:(apply list_elem_of_here)) as [slot Hslot].
        unfold mbind. rewrite (set_script_data_eq STDOUT [] slot) by done.
        apply (Hstep STDOUT slot); [ done | apply list_elem_of_here | done | | ].
        -- cbn [fst]. rewrite bool_decide_eq_true_2 by done. by rewrite andb_true_r.
        -- cbn [snd]. rewrite bool_decide_eq_false_2 by (intros Hn; by apply Hn).
           by rewrite andb_false_r.
      * rewrite bool_decide_eq_false_2 by done.
        destruct (IH (f1, f2) st) as (outs' & Heq & Hlookup).
        { intros Hin. apply Herr. by apply list_elem_of_further. }
        { intros Hin. apply Hout. by apply list_elem_of_further. }
        exists outs'. split.
        -- rewrite Heq. cbn [fst snd].
           rewrite (bool_decide_ext (STDERR ∉ id :: rest.*1) (STDERR ∉ rest.*1))
             by (rewrite not_elem_of_cons; split; [tauto | done]).
           by rewrite (bool_decide_ext (STDOUT ∉ id :: rest.*1) (STDOUT ∉ rest.*1))
             by (rewrite not_elem_of_cons; split; [tauto | done]).
        -- intros name. rewrite Hlookup. unfold streams_declared.
           apply (f_equal (λ b : bool, if b then _ else _)).
           apply bool_decide_ext. rewrite (elem_of_cons rest.*1 name id).
           split; [tauto|]. intros [[->|Hin] Hname]; [|done].
           exfalso. apply elem_of_cons in Hname as [->|Hname]; [done|].
           apply elem_of_cons in Hname as [->|Hname]; [done|].
           by apply elem_of_nil in Hname.
Qed.

(** X11: the loop over the declared outputs (lines 151 to 158) leaves
    the world alone and, when each declared stream has a binding,
    returns: [print_stderr] is false exactly when [_stderr] is declared
    and [print_stdout] exactly when [_stdout] is; the binding of a
    declared stream gets the empty string as [script_data] and keeps
    its other entries; every other binding is untouched. *)
Theorem declared_streams_not_echoed :
  ∀ (task_outputs : items) (st : state W),
    (STDERR ∈ task_outputs.*1 → is_Some (outputs st !! STDERR)) →
    (STDOUT ∈ task_outputs.*1 → is_Some (outputs st !! STDOUT)) →
    ∃ outs',
      declare_streams task_outputs (true, true) st
      = (Ok (bool_decide (STDERR ∉ task_outputs.*1),
             bool_decide (STDOUT ∉ task_outputs.*1)),
         {| world := world st; outputs := outs' |})
      ∧ (∀ name, name ∈ task_outputs.*1 → name ∈ [STDOUT; STDERR] →
           ∃ slot, outputs st !! name = Some slot
                   ∧ outs' !! name = Some (<[SCRIPT_DATA := []]> slot))
      ∧ (∀ name, name ∉ task_outputs.*1 ∨ name ∉ [STDOUT; STDERR] →
           outs' !! name = outputs st !! name).
Proof.
  intros task_outputs st Herr Hout.
  destruct (declare_streams_gen task_outputs (true, true) st Herr Hout)
    as (outs' & Heq & Hlookup).
  exists outs'. split; [exact Heq|]. split.
  - intros name Hin Hstream.
    assert (Hsome : is_Some (outputs st !! name)).
    { apply elem_of_cons in Hstream as [->|Hstream]; [by apply Hout|].
      apply elem_of_cons in Hstream as [->|Hstream]; [by apply Herr|].
      by apply elem_of_nil in Hstream. }
    destruct Hsome as [slot Hslot]. exists slot. split; [done|].
    rewrite Hlookup. unfold streams_declared.
    rewrite bool_decide_eq_true_2 by done. by rewrite Hslot.
  - intros name Hname. rewrite Hlookup. unfold streams_declared.
    rewrite bool_decide_eq_false_2; [done|]. tauto.
Qed.
End streams.

Lemma declared_streams_not_echoed_witness :
  let st := {| world := sim_worker 0 []; outputs := job_slots |} in
  ∃ outs',
    declare_streams job_outputs (true, true) st
    = (Ok (bool_decide (STDERR ∉ job_outputs.*1), bool_decide (STDOUT ∉ job_outputs.*1)),
       {| world := world st; outputs := outs' |})
    ∧ bool_decide (STDERR ∉ job_outputs.*1) = true
    ∧ bool_decide (STDOUT ∉ job_outputs.*1) = false.
Proof.
  cbv zeta.
  destruct (declared_streams_not_echoed job_outputs
              {| world := sim_worker 0 []; outputs := job_slots |})
    as (outs' & Heq & _).
  - intros Hin. exfalso. revert Hin. change (STDERR ∉ job_outputs.*1).
    apply (bool_decide_unpack _). vm_compute. reflexivity.
  - intros _. apply (bool_decide_unpack _). vm_compute. reflexivity.
  - exists outs'. split; [exact Heq|]. split; vm_compute; reflexivity.
Defined.

(** ** The exclusion list *)

Lemma lstrip_nil (s : pystr) : lstrip s = [] ↔ Forall (λ c, is_space c = true) s.
Proof.
  induction s as [|c s IH]; simpl; [by split|].
  destruct (is_space c) eqn:Hc.
  - rewrite IH, Forall_cons. tauto.
  - split; [done|]. intros Hall. apply Forall_cons in Hall as [Hc' _]. congruence.
Qed.

Lemma lstrip_app_visible (s : pystr) (c : ascii) : is_space c = false → lstrip (s ++ [c]) ≠ [].
Proof.
  intros Hc Hnil. apply lstrip_nil in Hnil. apply Forall_app in Hnil as [_ Hnil].
  apply Forall_cons in Hnil as [Hc' _]. congruence.
Qed.

Lemma lstrip_head (s : pystr) (c : ascii) (r : pystr) :
  lstrip s = c :: r → is_space c = false.
Proof.
  induction s as [|x s IH]; simpl; [done|].
  destruct (is_space x) eqn:Hx; [done|]. by intros [= <- _].
Qed.

(** An entry is dropped by the filter exactly when it is made of
    white space only. *)
Lemma strip_blank (s : pystr) :
  truthy (strip s) = false ↔ Forall (λ c, is_space c = true) s.
Proof.
  rewrite <- lstrip_nil. unfold strip.
  destruct (lstrip s) as [|c r] eqn:Hs; [done|].
  split; [|done]. intros Hblank. exfalso.
  apply lstrip_head in Hs as Hc.
  assert (Hne : lstrip (rev (c :: r)) ≠ []) by (simpl; by apply lstrip_app_visible).
  destruct (lstrip (rev (c :: r))) as [|y t]; [done|].
  simpl in Hblank. by destruct (rev t ++ [y]) eqn:Ht; [destruct (rev t)|].
Qed.

Lemma nonblank_nil (l : list pystr) :
  nonblank l = [] ↔ Forall (Forall (λ c, is_space c = true)) l.
Proof.
  unfold nonblank. induction l as [|x l IH]; [by split|].
  destruct (truthy (strip x)) eqn:Hx.
  - rewrite filter_cons_True by done. split; [done|]. intros Hall.
    apply Forall_cons in Hall as [Hblank _]. apply strip_blank in Hblank. congruence.
  - rewrite filter_cons_False by (by rewrite Hx). rewrite IH, Forall_cons.
    apply strip_blank in Hx. tauto.
Qed.

Lemma split_pieces (P : ascii → Prop) (c : ascii) (s : pystr) :
  Forall (Forall P) (split c s) ↔ Forall (λ x, x = c ∨ P x) s.
Proof.
  induction s as [|x s IH]; simpl.
  - split; [constructor | repeat constructor].
  - destruct (decide (x = c)) as [->|Hx].
    + rewrite !Forall_cons, IH. split; [intros [_ ?]; auto | intros [_ ?]; auto].
    + pose proof (split_nonempty c s) as Hne.
      destruct (split c s) as [|h t]; [done|].
      rewrite !Forall_cons in *. rewrite <- IH. naive_solver.
Qed.

(** X8: the exclusion list read from the setting [exclude_images] is
    empty, so that no exclusion file is written, exactly when the
    setting has nothing but commas and white space; and every entry
    that is kept is one of the comma-separated pieces, as it was
    written, with something other than white space in it. *)
Theorem exclusions_blank :
  ∀ images : pystr,
    (nonblank (split ","%char images) = []
     ↔ Forall (λ c, c = ","%char ∨ is_space c = true) images)
    ∧ Forall (λ img, img ∈ split ","%char images
                     ∧ ¬ Forall (λ c, is_space c = true) img)
        (nonblank (split ","%char images)).
Proof.
  intros images. split.
  - rewrite nonblank_nil. apply split_pieces.
  - unfold nonblank. apply Forall_forall. intros img Himg.
    apply list_elem_of_filter in Himg as [Hvisible Hin]. split; [done|].
    intros Hblank. apply strip_blank in Hblank. congruence.
Qed.

(** ** After the container *)

Section after_container.
Context {W : Type} `{Host W}.

(** X18: after a container that exited with status 0, when the scratch
    directory can be made, the reclaimer started and the outputs
    extracted, [run] waits for the reclaimer and looks at its exit
    status last: with status 0 it returns, with another status it
    raises "Docker GC returned code ...", and in both cases the output
    bindings are the ones the extraction has written. *)
Theorem reclaimer_status_checked_last :
  ∀ (task_outputs : items) (tempdir : pystr) (st : state W) (pid : nat),
    let gc_dir := PosixPath.join tempdir [str "docker_gc_scratch"] in
    let made :=
      os_mkdir gc_dir
        (print (str "Garbage collecting old containers and images.") (world st)) in
    let started := _docker_gc gc_dir {| world := snd made; outputs := outputs st |} in
    let extracted := extract_outputs tempdir task_outputs (snd started) in
    let waited := wait pid (world (snd extracted)) in
    fst made = Ok tt →
    fst started = Ok pid →
    fst extracted = Ok tt →
    run_collect task_outputs (Some tempdir) st
    = (if bool_decide (fst waited ≠ 0%Z) then Raise (gc_error (fst waited)) else Ok tt,
       {| world := snd waited; outputs := outputs (snd extracted) |}).
Proof.
  intros task_outputs tempdir st pid gc_dir made started extracted waited
    Hmade Hstarted Hextracted.
  unfold run_collect.
  cbv beta iota zeta delta [mbind of_result tell try call raise ret].
  cbn [world outputs]. fold gc_dir. fold made.
  destruct made as [r w1] eqn:Emade. cbn [fst snd] in *. subst r.
  fold started. destruct started as [r st2] eqn:Estarted. cbn [fst snd] in *. subst r.
  fold extracted. destruct extracted as [r st3] eqn:Eextracted. cbn [fst snd] in *.
  subst r. fold waited. destruct waited as [code w4]. cbn [fst snd].
  by destruct (bool_decide (code ≠ 0%Z)).
Qed.
End after_container.

(** A worker whose reclaimer exits with status 3, after a container
    that has written its output. *)
Definition sim_gc_fails : sim :=
  {| sim_cwd := str "/home/worker"; sim_uid := 1000; sim_environ := ∅;
     sim_paths := {[ str "/tmp/job1"; str "/tmp/job1/out.csv";
                     str "/opt/worker/plugins/docker/docker-gc" ]};
     sim_executables := {[ str "/opt/worker/plugins/docker/docker-gc" ]};
     sim_config := ∅; sim_pull_code := 0; sim_container_code := 0;
     sim_container_files := []; sim_container_stdout := []; sim_gc_code := 3;
     sim_log := [] |}.

Lemma reclaimer_status_checked_last_witness :
  let st := {| world := sim_gc_fails; outputs := job_slots |} in
  fst (run_collect job_outputs (Some (str "/tmp/job1")) st)
  = Raise (Exception (str "Docker GC returned code 3."))
  ∧ binding_data (outputs (snd (run_collect job_outputs (Some (str "/tmp/job1")) st)))
      (str "result") = Some (str "/tmp/job1/out.csv").
Proof.
  cbv zeta.
  rewrite (reclaimer_status_checked_last job_outputs (str "/tmp/job1")
             {| world := sim_gc_fails; outputs := job_slots |} 2);
    [ | vm_compute; reflexivity | vm_compute; reflexivity | vm_compute; reflexivity ].
  split; vm_compute; reflexivity.
Defined.
